(** * VF2Layout: choosing an initial layout by subgraph isomorphism

    A shallow embedding of [qiskit/transpiler/passes/layout/vf2_layout.py]
    (class [VF2Layout], methods [__init__] and [run]) together with the
    properties of the pass.

    Conventions of the embedding:
    - Python integers are [Z] (configuration) or [nat] (counters, indices);
    - scores and wall-clock readings are finite reals, represented in [Q];
      only their order is ever inspected by the pass;
    - [None]-able attributes are [option]s;
    - dictionaries whose iteration order is not observed are [gmap]s, the
      node map yielded by the matching engine is the list of its [items()];
    - exceptions are the [Raise] results of a small error monad;
    - [time.time()] and the entropy that seeds an unseeded PRNG are inputs
      of a run, gathered in [Env]. *)

From Stdlib Require Import ZArith QArith Lqa.
From stdpp Require Import base option list gmap strings.

(** ** Stop reasons (enum [VF2LayoutStopReason]) *)

Inductive VF2LayoutStopReason :=
| SOLUTION_FOUND
| NO_SOLUTION_FOUND
| MORE_THAN_2Q.

Definition stop_reason_value (r : VF2LayoutStopReason) : string :=
  match r with
  | SOLUTION_FOUND => "solution found"
  | NO_SOLUTION_FOUND => "nonexistent solution"
  | MORE_THAN_2Q => ">2q gates in basis"
  end.

(** ** Exceptions and the error monad *)

Inductive exn :=
| TranspilerError (msg : string)
| KeyError
| IndexError
| TypeError
| UnboundLocalError.

Inductive result (A : Type) :=
| Ok (a : A)
| Raise (e : exn).
Arguments Ok {A} a.
Arguments Raise {A} e.

Definition result_bind {A B} (r : result A) (k : A → result B) : result B :=
  match r with
  | Ok a => k a
  | Raise e => Raise e
  end.

Notation "x ←! r ; k" := (result_bind r (λ x, k))
  (at level 20, r at level 100, k at level 200, right associativity,
   format "x  ←!  r ;  '/' k").
Notation "' p ←! r ; k" := (result_bind r (λ p, k))
  (at level 20, p pattern, r at level 100, k at level 200,
   right associativity, format "' p  ←!  r ;  '/' k").

(** [d[k]] on a dictionary and [l[i]] on a list, with their exceptions. *)
Definition getitem `{Countable K} {V} (d : gmap K V) (k : K) : result V :=
  match d !! k with
  | Some v => Ok v
  | None => Raise KeyError
  end.

Definition getindex {V} (l : list V) (i : nat) : result V :=
  match l !! i with
  | Some v => Ok v
  | None => Raise IndexError
  end.

(** ** Circuit side: qubits, operations, the DAG *)

(** Modelled from the spec: the class [Qubit] of [qiskit.circuit] is not
    part of the sources at hand; a logical qubit is an identifier. *)
Inductive Qubit := Qb (n : nat).

Definition qubit_id (q : Qubit) : nat := let 'Qb n := q in n.

#[global] Instance Qubit_eq_dec : EqDecision Qubit.
Proof. solve_decision. Defined.

#[global] Instance Qubit_countable : Countable Qubit.
Proof. apply (inj_countable' qubit_id Qb). by intros []. Defined.

(** Modelled from the spec: the class [DAGOpNode] of [qiskit.dagcircuit] is
    not part of the sources at hand; an operation has a name and an ordered
    list of operand qubits. *)
Record DAGOpNode := {
  name : string;
  qargs : list Qubit;
}.

(** Modelled from the spec: the class [DAGCircuit] of [qiskit.dagcircuit]
    is not part of the sources at hand; the pass reads its operations and
    its declared qubit registers (name and qubits, in order). *)
Record DAGCircuit := {
  op_nodes : list DAGOpNode;
  qregs : list (string * list Qubit);
}.

(** ** Graphs (the part of rustworkx's [PyGraph]/[PyDiGraph] the pass uses)

    Node indices are [0 .. num_nodes - 1]; no node is ever removed. *)

Record Graph := {
  num_nodes : nat;
  edge_list : list (nat * nat);
  directed : bool;
}.

Definition node_indexes (g : Graph) : list nat := seq 0 (num_nodes g).

Definition new_graph (d : bool) : Graph :=
  {| num_nodes := 0; edge_list := []; directed := d |}.

Definition pair_eqb (e f : nat * nat) : bool :=
  Nat.eqb e.1 f.1 && Nat.eqb e.2 f.2.

Definition has_edge (g : Graph) (a b : nat) : bool :=
  existsb (pair_eqb (a, b)) (edge_list g)
  || (negb (directed g) && existsb (pair_eqb (b, a)) (edge_list g)).

(** [add_node] returns the index of the new node. *)
Definition add_node (g : Graph) : Graph * nat :=
  ({| num_nodes := S (num_nodes g); edge_list := edge_list g;
      directed := directed g |}, num_nodes g).

Definition add_edge (g : Graph) (a b : nat) : Graph :=
  {| num_nodes := num_nodes g; edge_list := edge_list g ++ [(a, b)];
     directed := directed g |}.

Definition to_undirected (g : Graph) : Graph :=
  {| num_nodes := num_nodes g; edge_list := edge_list g; directed := false |}.

(** Modelled from the spec: the class [CouplingMap] of
    [qiskit.transpiler.coupling] is not part of the sources at hand; the
    pass reads its directed graph over the physical qubits. *)
Record CouplingMap := {
  graph : Graph;
}.

(** The edges of a coupling map join physical qubits of the device. *)
Definition coupling_wf (cm : CouplingMap) : bool :=
  forallb (λ e : nat * nat,
    Nat.ltb e.1 (num_nodes (graph cm)) && Nat.ltb e.2 (num_nodes (graph cm)))
    (edge_list (graph cm)).

(** Modelled from the spec: the graph the missing
    [vf2_utils.shuffle_coupling_graph] starts from, the coupling graph
    itself under [strict_direction], the same edges without direction
    otherwise. *)
Definition coupling_view (cm : CouplingMap) (strict_direction : bool) : Graph :=
  if strict_direction then graph cm else to_undirected (graph cm).

(** ** Subgraph embeddings

    A node map is given by its items, pairs (node of [first], node of
    [second]). *)

Definition node_map_ok (first second : Graph) (m : list (nat * nat)) : bool :=
  forallb (λ ci : nat * nat,
    Nat.ltb ci.1 (num_nodes first) && Nat.ltb ci.2 (num_nodes second)) m.

(** Every edge of [second] lies on an edge of [first] under the node map. *)
Definition preserves_edges (first second : Graph) (m : list (nat * nat)) : bool :=
  forallb (λ e : nat * nat,
    existsb (λ x : nat * nat, Nat.eqb x.2 e.1 &&
      existsb (λ y : nat * nat, Nat.eqb y.2 e.2 && has_edge first x.1 y.1) m) m)
    (edge_list second).

(** [m] embeds [second] into [first] as a subgraph, not necessarily an
    induced one: it is one-to-one, defined on every node of [second], and
    preserves the edges of [second] (with their direction in directed
    graphs). *)
Definition is_embedding (first second : Graph) (m : list (nat * nat)) : bool :=
  node_map_ok first second m
  && bool_decide (NoDup m.*1)
  && bool_decide (NoDup m.*2)
  && forallb (λ i, existsb (Nat.eqb i) m.*2) (node_indexes second)
  && preserves_edges first second m.

(** The same, as a proposition. *)
Definition embedding (first second : Graph) (m : list (nat * nat)) : Prop :=
  (∀ c i, (c, i) ∈ m → c < num_nodes first ∧ i < num_nodes second)
  ∧ NoDup m.*1
  ∧ NoDup m.*2
  ∧ (∀ i, i < num_nodes second → i ∈ m.*2)
  ∧ (∀ a b, (a, b) ∈ edge_list second →
       ∃ ca cb, (ca, a) ∈ m ∧ (cb, b) ∈ m ∧ has_edge first ca cb = true).

(** ** Layout *)

(** Modelled from the spec: the class [Layout] of
    [qiskit.transpiler.layout] is not part of the sources at hand.  A layout
    is a finite map from logical qubits to physical qubit indices. *)
Record Layout := {
  v2p : gmap Qubit nat;
}.

(** Modelled from the spec: the constructor [Layout(dict)], missing with
    the class; the layout holds the pairs of the dictionary. *)
Definition Layout_from_dict (d : gmap Qubit nat) : Layout := {| v2p := d |}.

(** Modelled from the spec: whether a physical qubit is taken, part of the
    missing class [Layout]. *)
Definition physical_used (l : Layout) (p : nat) : bool :=
  bool_decide (p ∈ (map_img (v2p l) : gset nat)).

(** Modelled from the spec: a physical index no qubit of the layout uses
    (the least one), part of the missing class [Layout]. *)
Definition first_unused (l : Layout) : nat :=
  default (size (v2p l))
    (find (λ p, negb (physical_used l p)) (seq 0 (S (size (v2p l))))).

(** Modelled from the spec: [Layout.add(bit)], missing with the class; the
    qubit is assigned an unused physical qubit. *)
Definition Layout_add (l : Layout) (bit : Qubit) : Layout :=
  {| v2p := <[bit := first_unused l]> (v2p l) |}.

(** Modelled from the spec: [Layout.add_register(reg)], missing with the
    class; extending a layout by a register leaves the qubits it already
    covers where they are and adds every other qubit of the register. *)
Definition Layout_add_register (l : Layout) (reg : list Qubit) : Layout :=
  foldl (λ acc bit, match v2p acc !! bit with
                    | Some _ => acc
                    | None => Layout_add acc bit
                    end) l reg.

(** ** Interaction graph *)

(** Modelled from the spec: the result of
    [vf2_utils.build_interaction_graph], which is not part of the sources
    at hand: the graph, the map from logical qubits to its nodes, and the
    inverse map. *)
Record InteractionGraph := {
  im_graph : Graph;
  im_graph_node_map : gmap Qubit nat;
  reverse_im_graph_node_map : gmap nat Qubit;
}.

(** Modelled from the spec: a step of the missing
    [vf2_utils.build_interaction_graph]; one node per qubit used by an
    operation. *)
Definition im_touch (ig : InteractionGraph) (q : Qubit) : InteractionGraph :=
  match im_graph_node_map ig !! q with
  | Some _ => ig
  | None =>
      let '(g, i) := add_node (im_graph ig) in
      {| im_graph := g;
         im_graph_node_map := <[q := i]> (im_graph_node_map ig);
         reverse_im_graph_node_map := <[i := q]> (reverse_im_graph_node_map ig) |}
  end.

(** Modelled from the spec: a step of the missing
    [vf2_utils.build_interaction_graph]; one edge per distinct pair of
    qubits of a two-qubit operation, multi-edges collapse. *)
Definition im_connect (ig : InteractionGraph) (q0 q1 : Qubit)
    : InteractionGraph :=
  let ig := im_touch (im_touch ig q0) q1 in
  match im_graph_node_map ig !! q0, im_graph_node_map ig !! q1 with
  | Some a, Some b =>
      if has_edge (im_graph ig) a b then ig
      else {| im_graph := add_edge (im_graph ig) a b;
              im_graph_node_map := im_graph_node_map ig;
              reverse_im_graph_node_map := reverse_im_graph_node_map ig |}
  | _, _ => ig
  end.

(** Modelled from the spec: the walk over the operations of the missing
    [vf2_utils.build_interaction_graph]; an operation on more than two
    qubits aborts with the sentinel [None] and no partial graph. *)
Fixpoint build_interaction_graph_from (ig : InteractionGraph)
    (ops : list DAGOpNode) : option InteractionGraph :=
  match ops with
  | [] => Some ig
  | node :: ops =>
      match qargs node with
      | [] => build_interaction_graph_from ig ops
      | [q] => build_interaction_graph_from (im_touch ig q) ops
      | [q0; q1] => build_interaction_graph_from (im_connect ig q0 q1) ops
      | _ => None
      end
  end.

(** Modelled from the spec: [vf2_utils.build_interaction_graph], not part
    of the sources at hand; the graph is directed exactly under
    [strict_direction]. *)
Definition build_interaction_graph (dag : DAGCircuit) (strict_direction : bool)
    : option InteractionGraph :=
  build_interaction_graph_from
    {| im_graph := new_graph strict_direction;
       im_graph_node_map := ∅;
       reverse_im_graph_node_map := ∅ |}
    (op_nodes dag).

(** The two node maps are inverse to each other and cover the nodes. *)
Definition ig_wf (ig : InteractionGraph) : Prop :=
  (∀ q i, im_graph_node_map ig !! q = Some i ↔
          reverse_im_graph_node_map ig !! i = Some q)
  ∧ (∀ i, is_Some (reverse_im_graph_node_map ig !! i) ↔
          i < num_nodes (im_graph ig)).

(** ** External collaborators

    What the pass calls but does not define: the target description and the
    calibration data (opaque to the pass), the error-map builder and the
    scorer of [vf2_utils], rustworkx's matching engine, and the shuffle of
    Python's seeded PRNG. *)

Class Collaborators (Target Properties ErrorMap : Type) := {
  (** [target.build_coupling_map()] *)
  build_coupling_map : Target → option CouplingMap;
  (** [vf2_utils.build_average_error_map(target, properties, coupling_map)] *)
  build_average_error_map :
    option Target → option Properties → CouplingMap → ErrorMap;
  (** [vf2_utils.score_layout(avg_error_map, layout, bit_map,
      reverse_bit_map, im_graph, strict_direction)] *)
  score_layout :
    option ErrorMap → Layout → gmap Qubit nat → gmap nat Qubit → Graph →
    bool → Q;
  (** [rustworkx.vf2_mapping(first, second, subgraph=True, id_order=False,
      induced=False, call_limit=...)]: the finite stream of node maps, each
      given by its [items()], pairs (node of [first], node of [second]). *)
  vf2_mapping : Graph → Graph → option Z → list (list (nat * nat));
  (** [random.Random(seed).shuffle(l)] for an integer seed *)
  random_shuffle : Z → list nat → list nat;
}.

(** What a run reads from the outside world. *)
Record Env := {
  (** the reading of the [n]-th call of [time.time()] in the run *)
  clock : nat → Q;
  (** the seed the PRNG draws when it is given [None] *)
  os_entropy : Z;
}.

(** Values of the property set. *)
Inductive PropertyValue :=
| PVLayout (l : Layout)
| PVStopReason (r : VF2LayoutStopReason).

(** Local variables of the search loop of [run]. *)
Record SearchState := {
  chosen_layout : option Layout;
  chosen_layout_score : option Q;
  trials : nat;
  stop_reason : option VF2LayoutStopReason;
  (** number of [time.time()] calls made so far *)
  clock_reads : nat;
  (** ghost: the layouts [score_layout] was called on, latest first *)
  scored : list Layout;
}.

Definition Qltb (x y : Q) : bool := negb (Qle_bool y x).

Section Pass.
Context {Target Properties ErrorMap : Type}.
Context `{!Collaborators Target Properties ErrorMap}.

(** *** Coupling graph adapter *)

(** Modelled from the spec: the position of a node index in the shuffled
    list, a step of the missing [vf2_utils.shuffle_coupling_graph]. *)
Definition index_of (k : nat) (l : list nat) : nat :=
  default 0 (fst <$> list_find (λ x, x = k) l).

(** Modelled from the spec: the new index of node [i] under the
    permutation [perm], a step of the missing
    [vf2_utils.shuffle_coupling_graph]. *)
Definition relabel (perm : list nat) (i : nat) : nat :=
  default i (perm !! i).

(** Modelled from the spec: the relabelled graph of the missing
    [vf2_utils.shuffle_coupling_graph]; the edge structure is preserved. *)
Definition relabel_graph (perm : list nat) (g : Graph) : Graph :=
  {| num_nodes := length perm;
     edge_list := map (λ e, (relabel perm e.1, relabel perm e.2)) (edge_list g);
     directed := directed g |}.

(** Modelled from the spec: the table of the missing
    [vf2_utils.shuffle_coupling_graph] from new node indices back to the
    original physical qubit indices. *)
Definition inverse_table (perm : list nat) : list nat :=
  map (λ k, index_of k perm) (seq 0 (length perm)).

(** Modelled from the spec: [vf2_utils.shuffle_coupling_graph] is not part
    of the sources at hand.  The graph has one node per physical qubit;
    without [strict_direction] the same edges are matched regardless of
    direction.  Unless the seed is the no-shuffle sentinel [-1], node
    indices are permuted by the seeded PRNG (seeded from the system when
    the seed is [None]), and the table returned maps a node index of the
    permuted graph to the original physical qubit index; with the sentinel
    the table is the identity. *)
Definition shuffle_coupling_graph (coupling_map : CouplingMap)
    (seed : option Z) (entropy : Z) (strict_direction : bool)
    : Graph * list nat :=
  let cm_graph := coupling_view coupling_map strict_direction in
  let cm_nodes := node_indexes cm_graph in
  if bool_decide (seed = Some (-1)%Z) then (cm_graph, cm_nodes)
  else
    let perm := random_shuffle (default entropy seed) cm_nodes in
    (relabel_graph perm cm_graph, inverse_table perm).

(** *** The pass instance *)

Record VF2Layout := {
  target : option Target;
  coupling_map : option CouplingMap;
  properties : option Properties;
  strict_direction : bool;
  seed : option Z;
  call_limit : option Z;
  time_limit : option Q;
  max_trials : option Z;
  avg_error_map : option ErrorMap;
  property_set : gmap string PropertyValue;
}.

(** [VF2Layout.__init__] *)
Definition init (coupling_map : option CouplingMap) (strict_direction : bool)
    (seed call_limit : option Z) (time_limit : option Q)
    (properties : option Properties) (max_trials : option Z)
    (target : option Target) : VF2Layout :=
  {| target := target;
     coupling_map :=
       match target with
       | Some t => build_coupling_map t
       | None => coupling_map
       end;
     properties := properties;
     strict_direction := strict_direction;
     seed := seed;
     call_limit := call_limit;
     time_limit := time_limit;
     max_trials := max_trials;
     avg_error_map := None;
     property_set := ∅ |}.

Definition set_max_trials (self : VF2Layout) (v : option Z) : VF2Layout :=
  {| target := target self; coupling_map := coupling_map self;
     properties := properties self;
     strict_direction := strict_direction self; seed := seed self;
     call_limit := call_limit self; time_limit := time_limit self;
     max_trials := v;
     avg_error_map := avg_error_map self;
     property_set := property_set self |}.

Definition set_avg_error_map (self : VF2Layout) (v : option ErrorMap)
    : VF2Layout :=
  {| target := target self; coupling_map := coupling_map self;
     properties := properties self;
     strict_direction := strict_direction self; seed := seed self;
     call_limit := call_limit self; time_limit := time_limit self;
     max_trials := max_trials self;
     avg_error_map := v;
     property_set := property_set self |}.

Definition set_property (self : VF2Layout) (k : string) (v : PropertyValue)
    : VF2Layout :=
  {| target := target self; coupling_map := coupling_map self;
     properties := properties self;
     strict_direction := strict_direction self; seed := seed self;
     call_limit := call_limit self; time_limit := time_limit self;
     max_trials := max_trials self;
     avg_error_map := avg_error_map self;
     property_set := <[k := v]> (property_set self) |}.

(** *** The search loop of [run] *)

(** The dictionary
    [{reverse_im_graph_node_map[im_i]: cm_nodes[cm_i] for cm_i, im_i in mapping.items()}]. *)
Fixpoint layout_dict (rev : gmap nat Qubit) (cm_nodes : list nat)
    (items : list (nat * nat)) (acc : gmap Qubit nat)
    : result (gmap Qubit nat) :=
  match items with
  | [] => Ok acc
  | (cm_i, im_i) :: items =>
      q ←! getitem rev im_i;
      p ←! getindex cm_nodes cm_i;
      layout_dict rev cm_nodes items (<[q := p]> acc)
  end.

Definition initial_search_state : SearchState :=
  {| chosen_layout := None; chosen_layout_score := None; trials := 0;
     stop_reason := None;
     (* [start_time = time.time()] is call number 0 *)
     clock_reads := 1; scored := [] |}.

(** One iteration of [for mapping in mappings]; the boolean tells whether
    the iteration ended in [break]. *)
Definition trial (self : VF2Layout) (env : Env) (ig : InteractionGraph)
    (cm_graph : Graph) (cm_nodes : list nat)
    (st : SearchState) (mapping : list (nat * nat))
    : result (SearchState * bool) :=
  let trials := S (trials st) in
  let stop_reason := Some SOLUTION_FOUND in
  d ←! layout_dict (reverse_im_graph_node_map ig) cm_nodes mapping ∅;
  let layout := Layout_from_dict d in
  if Nat.eqb (num_nodes cm_graph) (num_nodes (im_graph ig)) then
    Ok ({| chosen_layout := Some layout;
           chosen_layout_score := chosen_layout_score st;
           trials := trials; stop_reason := stop_reason;
           clock_reads := clock_reads st; scored := scored st |}, true)
  else
    let layout_score :=
      score_layout (avg_error_map self) layout (im_graph_node_map ig)
        (reverse_im_graph_node_map ig) (im_graph ig)
        (strict_direction self) in
    let scored := layout :: scored st in
    '(chosen, chosen_score) ←!
      match chosen_layout st with
      | None => Ok (Some layout, Some layout_score)
      | Some _ =>
          match chosen_layout_score st with
          | None => Raise TypeError
          | Some best =>
              if Qltb layout_score best
              then Ok (Some layout, Some layout_score)
              else Ok (chosen_layout st, chosen_layout_score st)
          end
      end;
    let st1 := {| chosen_layout := chosen; chosen_layout_score := chosen_score;
                  trials := trials; stop_reason := stop_reason;
                  clock_reads := clock_reads st; scored := scored |} in
    if match max_trials self with
       | Some m => (0 <? m)%Z && (m <=? Z.of_nat trials)%Z
       | None => false
       end
    then Ok (st1, true)
    else
      let elapsed_time := (clock env (clock_reads st) - clock env 0)%Q in
      let st2 := {| chosen_layout := chosen;
                    chosen_layout_score := chosen_score;
                    trials := trials; stop_reason := stop_reason;
                    clock_reads := S (clock_reads st); scored := scored |} in
      Ok (st2,
          match time_limit self with
          | Some limit => Qle_bool limit elapsed_time
          | None => false
          end).

Fixpoint search (self : VF2Layout) (env : Env) (ig : InteractionGraph)
    (cm_graph : Graph) (cm_nodes : list nat)
    (st : SearchState) (mappings : list (list (nat * nat)))
    : result SearchState :=
  match mappings with
  | [] => Ok st
  | mapping :: mappings =>
      '(st, stop) ←! trial self env ig cm_graph cm_nodes st mapping;
      if stop : bool then Ok st
      else search self env ig cm_graph cm_nodes st mappings
  end.

(** *** [VF2Layout.run]

    The result is the new state of the instance, or the exception that
    ended the call. *)

(** Lines 109-112: the error map is built when the instance has none. *)
Definition ensure_avg_error_map (self : VF2Layout) (cm : CouplingMap)
    : VF2Layout :=
  match avg_error_map self with
  | None =>
      set_avg_error_map self
        (Some (build_average_error_map (target self) (properties self) cm))
  | Some _ => self
  end.

(** Lines 126-129: the default trial limit. *)
Definition default_max_trials (self : VF2Layout) (cm : CouplingMap)
    (ig : InteractionGraph) : VF2Layout :=
  match max_trials self, call_limit self, time_limit self with
  | None, None, None =>
      let im_graph_edge_count := length (edge_list (im_graph ig)) in
      let cm_graph_edge_count := length (edge_list (graph cm)) in
      set_max_trials self
        (Some (Z.of_nat (Nat.max im_graph_edge_count cm_graph_edge_count)
               + 15)%Z)
  | _, _, _ => self
  end.

(** Lines 119-189: shuffle, matching and the trials. *)
Definition search_phase (self : VF2Layout) (env : Env) (cm : CouplingMap)
    (ig : InteractionGraph) : result (VF2Layout * SearchState) :=
  let '(cm_graph, cm_nodes) :=
    shuffle_coupling_graph cm (seed self) (os_entropy env)
      (strict_direction self) in
  let self := default_max_trials self cm ig in
  let mappings := vf2_mapping cm_graph (im_graph ig) (call_limit self) in
  st ←! search self env ig cm_graph cm_nodes initial_search_state mappings;
  Ok (self, st).

(** [layout.add_register(reg)] for every [reg] of [dag.qregs.values()]. *)
Definition add_registers (l : Layout) (dag : DAGCircuit) : Layout :=
  foldl (λ l reg, Layout_add_register l reg.2) l (qregs dag).

(** Lines 190-197: what reaches the property set. *)
Definition publish (self : VF2Layout) (dag : DAGCircuit) (st : SearchState)
    : result VF2Layout :=
  match chosen_layout st with
  | None =>
      Ok (set_property self "VF2Layout_stop_reason"
            (PVStopReason NO_SOLUTION_FOUND))
  | Some chosen =>
      let self := set_property self "layout"
                    (PVLayout (add_registers chosen dag)) in
      r ←! match stop_reason st with
           | Some r => Ok r
           | None => Raise UnboundLocalError
           end;
      Ok (set_property self "VF2Layout_stop_reason" (PVStopReason r))
  end.

Definition run (self : VF2Layout) (env : Env) (dag : DAGCircuit)
    : result VF2Layout :=
  match coupling_map self with
  | None => Raise (TranspilerError "coupling_map or target must be specified.")
  | Some cm =>
      let self := ensure_avg_error_map self cm in
      match build_interaction_graph dag (strict_direction self) with
      | None =>
          Ok (set_property self "VF2Layout_stop_reason"
                (PVStopReason MORE_THAN_2Q))
      | Some ig =>
          '(self, st) ←! search_phase self env cm ig;
          publish self dag st
      end
  end.

(** [run] together with the instance as the call leaves it, also when the
    call ends in an exception: the assignments to [self.avg_error_map]
    (line 110) and [self.max_trials] (line 129) made before the exception
    stay, and the property set is written only at lines 116, 193 and 197. *)
Definition run_effect (self : VF2Layout) (env : Env) (dag : DAGCircuit)
    : VF2Layout * option exn :=
  match coupling_map self with
  | None =>
      (self, Some (TranspilerError "coupling_map or target must be specified."))
  | Some cm =>
      let self := ensure_avg_error_map self cm in
      match build_interaction_graph dag (strict_direction self) with
      | None =>
          (set_property self "VF2Layout_stop_reason"
             (PVStopReason MORE_THAN_2Q), None)
      | Some ig =>
          match search_phase self env cm ig with
          | Raise e => (default_max_trials self cm ig, Some e)
          | Ok (self, st) =>
              match publish self dag st with
              | Ok self => (self, None)
              | Raise e =>
                  (match chosen_layout st with
                   | Some chosen =>
                       set_property self "layout"
                         (PVLayout (add_registers chosen dag))
                   | None => self
                   end, Some e)
              end
          end
      end
  end.

(** *** Well-formed answers of the matching engine *)

(** The graph handed to the engine and the candidates it answers with. *)
Definition search_graph (self : VF2Layout) (env : Env) (cm : CouplingMap)
    : Graph :=
  (shuffle_coupling_graph cm (seed self) (os_entropy env)
     (strict_direction self)).1.

Definition search_nodes (self : VF2Layout) (env : Env) (cm : CouplingMap)
    : list nat :=
  (shuffle_coupling_graph cm (seed self) (os_entropy env)
     (strict_direction self)).2.

Definition candidates (self : VF2Layout) (env : Env) (cm : CouplingMap)
    (ig : InteractionGraph) : list (list (nat * nat)) :=
  vf2_mapping (search_graph self env cm) (im_graph ig) (call_limit self).

Definition search_in_range (self : VF2Layout) (env : Env) (cm : CouplingMap)
    (ig : InteractionGraph) : bool :=
  forallb (node_map_ok (search_graph self env cm) (im_graph ig))
    (candidates self env cm ig).

(** The engine call made by [run self env dag] yields such node maps. *)
Definition engine_in_range (self : VF2Layout) (env : Env) (dag : DAGCircuit)
    : bool :=
  match coupling_map self,
        build_interaction_graph dag (strict_direction self) with
  | Some cm, Some ig => search_in_range self env cm ig
  | _, _ => true
  end.

(** *** Vocabulary of the statements about the trials *)

(** The layout a candidate stands for, when building it raises nothing. *)
Definition layout_of (rev : gmap nat Qubit) (cm_nodes : list nat)
    (m : list (nat * nat)) : option Layout :=
  match layout_dict rev cm_nodes m ∅ with
  | Ok d => Some (Layout_from_dict d)
  | Raise _ => None
  end.

Definition candidate_layout (self : VF2Layout) (env : Env) (cm : CouplingMap)
    (ig : InteractionGraph) (m : list (nat * nat)) : option Layout :=
  layout_of (reverse_im_graph_node_map ig) (search_nodes self env cm) m.

(** The score [run] computes for a layout. *)
Definition layout_score (self : VF2Layout) (ig : InteractionGraph)
    (l : Layout) : Q :=
  score_layout (avg_error_map self) l (im_graph_node_map ig)
    (reverse_im_graph_node_map ig) (im_graph ig) (strict_direction self).

(** The two [break] tests at the end of trial number [t]. *)
Definition stops_after (self : VF2Layout) (env : Env) (t : nat) : bool :=
  match max_trials self with
  | Some m => (0 <? m)%Z && (m <=? Z.of_nat t)%Z
  | None => false
  end
  || match time_limit self with
     | Some limit => Qle_bool limit (clock env t - clock env 0)%Q
     | None => false
     end.

(** Number of trials made out of [n] candidates after [t] earlier ones. *)
Fixpoint trials_run (self : VF2Layout) (env : Env) (t n : nat) : nat :=
  match n with
  | 0 => 0
  | S n =>
      if stops_after self env (S t) then 1
      else S (trials_run self env (S t) n)
  end.

(** Best-so-far bookkeeping as a fold over scored layouts. *)
Definition better (acc : option (Layout * Q)) (c : Layout * Q)
    : option (Layout * Q) :=
  match acc with
  | None => Some c
  | Some (l, b) => if Qltb c.2 b then Some c else acc
  end.

Definition best_of (acc : option (Layout * Q)) (cands : list (Layout * Q))
    : option (Layout * Q) :=
  foldl better acc cands.

Definition best_pair (st : SearchState) : option (Layout * Q) :=
  match chosen_layout st, chosen_layout_score st with
  | Some l, Some s => Some (l, s)
  | _, _ => None
  end.

(** Either no layout is retained yet, or one is, together with its score. *)
Definition paired (st : SearchState) : Prop :=
  chosen_layout st = fst <$> best_pair st
  ∧ chosen_layout_score st = snd <$> best_pair st.

(** The state in which the loop ends on graphs of equal size. *)
Definition shortcut_state (l : Layout) : SearchState :=
  {| chosen_layout := Some l; chosen_layout_score := None; trials := 1;
     stop_reason := Some SOLUTION_FOUND; clock_reads := 1; scored := [] |}.

(** The PRNG returns a rearrangement of the node list of the run. *)
Definition shuffle_permutes (self : VF2Layout) (env : Env)
    (cm : CouplingMap) : Prop :=
  random_shuffle (default (os_entropy env) (seed self))
    (node_indexes (coupling_view cm (strict_direction self)))
  ≡ₚ node_indexes (coupling_view cm (strict_direction self)).

(** At the head of the loop a retained layout comes with its score. *)
Definition scored_if_chosen (st : SearchState) : Prop :=
  is_Some (chosen_layout st) → is_Some (chosen_layout_score st).

(** Whenever a layout is retained the stop reason is bound. *)
Definition found_if_chosen (st : SearchState) : Prop :=
  is_Some (chosen_layout st) → stop_reason st = Some SOLUTION_FOUND.

(** A client assigning the calibration and topology attributes. *)
Definition set_inputs (self : VF2Layout) (t : option Target)
    (p : option Properties) (c : option CouplingMap) : VF2Layout :=
  {| target := t; coupling_map := c; properties := p;
     strict_direction := strict_direction self; seed := seed self;
     call_limit := call_limit self; time_limit := time_limit self;
     max_trials := max_trials self;
     avg_error_map := avg_error_map self;
     property_set := property_set self |}.

End Pass.

Arguments VF2Layout : clear implicits.

(** ** A reference matching engine and sample collaborators

    Used to run the pass on concrete circuits. *)

(** All lists of [k] distinct node indices below [n]. *)
Fixpoint injections (n k : nat) : list (list nat) :=
  match k with
  | 0 => [[]]
  | S k =>
      l ← injections n k;
      c ← seq 0 n;
      if bool_decide (c ∈ l) then [] else [l ++ [c]]
  end.

(** Exhaustive enumeration of the embeddings of [second] into [first]. *)
Definition reference_engine (first second : Graph) (call_limit : option Z)
    : list (list (nat * nat)) :=
  filter (λ m, preserves_edges first second m = true)
    ((λ l, zip l (seq 0 (num_nodes second))) <$>
       injections (num_nodes first) (num_nodes second)).

Definition sum_physical (l : Layout) : nat :=
  map_fold (λ _ p acc, p + acc) 0 (v2p l).

(** Calibration data is a number, the error map built from it that number,
    the score of a layout the sum of the physical indices it uses, and the
    shuffle a reversal. *)
Definition sample_collaborators : Collaborators unit nat nat := {|
  build_coupling_map _ := None;
  build_average_error_map _ p _ := default 0 p;
  score_layout _ l _ _ _ _ := inject_Z (Z.of_nat (sum_physical l));
  vf2_mapping := reference_engine;
  random_shuffle _ l := reverse l;
|}.

Abbreviation SamplePass := (VF2Layout unit nat nat).

Definition sample_run : SamplePass → Env → DAGCircuit → result SamplePass :=
  run (Collaborators0 := sample_collaborators).

Definition sample_init : option CouplingMap → bool → option Z → option Z →
    option Q → option nat → option Z → option unit → SamplePass :=
  init (Collaborators0 := sample_collaborators).

(** A line of three physical qubits, [0 - 1 - 2]. *)
Definition line3 : CouplingMap :=
  {| graph := {| num_nodes := 3; edge_list := [(0, 1); (1, 2)];
                 directed := true |} |}.

Definition cx (a b : nat) : DAGOpNode :=
  {| name := "cx"; qargs := [Qb a; Qb b] |}.

Definition ccx (a b c : nat) : DAGOpNode :=
  {| name := "ccx"; qargs := [Qb a; Qb b; Qb c] |}.

Definition three_qubits : list (string * list Qubit) :=
  [("q"%string, [Qb 0; Qb 1; Qb 2])].

Definition dag_chain : DAGCircuit :=
  {| op_nodes := [cx 0 1; cx 1 2]; qregs := three_qubits |}.

Definition dag_pair : DAGCircuit :=
  {| op_nodes := [cx 0 1]; qregs := three_qubits |}.

Definition dag_triangle : DAGCircuit :=
  {| op_nodes := [cx 0 1; cx 1 2; cx 0 2]; qregs := three_qubits |}.

Definition dag_toffoli : DAGCircuit :=
  {| op_nodes := [cx 0 1; ccx 0 1 2]; qregs := three_qubits |}.

(** A clock that stands still, and one that jumps ten seconds per reading. *)
Definition still : Env := {| clock _ := 0%Q; os_entropy := 0%Z |}.

Definition hasty : Env :=
  {| clock n := inject_Z (10 * Z.of_nat n); os_entropy := 0%Z |}.

(** The published layout of a finished run, as an association list. *)
Definition published_layout {T P E} (r : result (VF2Layout T P E))
    : option (list (Qubit * nat)) :=
  match r with
  | Ok self =>
      match property_set self !! "layout"%string with
      | Some (PVLayout l) => Some (map_to_list (v2p l))
      | _ => None
      end
  | Raise _ => None
  end.

Definition published_stop_reason {T P E} (r : result (VF2Layout T P E))
    : option VF2LayoutStopReason :=
  match r with
  | Ok self =>
      match property_set self !! "VF2Layout_stop_reason"%string with
      | Some (PVStopReason r) => Some r
      | _ => None
      end
  | Raise _ => None
  end.

(** What a finished computation shows, [None] after an exception. *)
Definition observe {A B} (f : A → B) (r : result A) : option B :=
  match r with
  | Ok a => Some (f a)
  | Raise _ => None
  end.

(** The interaction graph of a sample circuit. *)
Definition sample_ig (dag : DAGCircuit) (strict : bool) : InteractionGraph :=
  default {| im_graph := new_graph strict; im_graph_node_map := ∅;
             reverse_im_graph_node_map := ∅ |}
    (build_interaction_graph dag strict).

Definition sample_search :
    SamplePass → Env → CouplingMap → InteractionGraph →
    result (SamplePass * SearchState) :=
  search_phase (Collaborators0 := sample_collaborators).

Definition sample_candidates :
    SamplePass → Env → CouplingMap → InteractionGraph →
    list (list (nat * nat)) :=
  candidates (Collaborators0 := sample_collaborators).

(** Passes on the line: without shuffle, with shuffle, with a time limit of
    one second, and with calibration data. *)
Definition pass_plain : SamplePass :=
  sample_init (Some line3) false (Some (-1)%Z) None None None None None.

Definition pass_shuffled : SamplePass :=
  sample_init (Some line3) false (Some 7%Z) None None None None None.

Definition pass_timed : SamplePass :=
  sample_init (Some line3) false (Some 7%Z) None (Some 1%Q) None None None.

Definition pass_calibrated : SamplePass :=
  sample_init (Some line3) false (Some (-1)%Z) None None (Some 1) None None.

(** An engine whose only answer names a node the coupling graph lacks. *)
Definition faulty_collaborators : Collaborators unit nat nat := {|
  build_coupling_map _ := None;
  build_average_error_map _ p _ := default 0 p;
  score_layout _ l _ _ _ _ := inject_Z (Z.of_nat (sum_physical l));
  vf2_mapping _ _ _ := [[(7, 0); (1, 1)]];
  random_shuffle _ l := reverse l;
|}.

(** A pass constructed without coupling map and without target. *)
Definition pass_bare : SamplePass :=
  sample_init None false None None None None None None.

(** The state of [pass_plain] after its run on the chain. *)
Definition after_chain : SamplePass :=
  match sample_run pass_plain still dag_chain with
  | Ok self => self
  | Raise _ => pass_plain
  end.

(** A line of seven physical qubits and two circuits for it: the complete
    graph on five qubits (ten edges), and a pair with a spare qubit. *)
Definition line7 : CouplingMap :=
  {| graph := {| num_nodes := 7;
                 edge_list := [(0, 1); (1, 2); (2, 3); (3, 4); (4, 5); (5, 6)];
                 directed := true |} |}.

Definition h (a : nat) : DAGOpNode := {| name := "h"; qargs := [Qb a] |}.

Definition five_qubits : list (string * list Qubit) :=
  [("q"%string, [Qb 0; Qb 1; Qb 2; Qb 3; Qb 4])].

Definition dag_k5 : DAGCircuit :=
  {| op_nodes := [cx 0 1; cx 0 2; cx 0 3; cx 0 4; cx 1 2; cx 1 3; cx 1 4;
                  cx 2 3; cx 2 4; cx 3 4];
     qregs := five_qubits |}.

Definition dag_pair_spare : DAGCircuit :=
  {| op_nodes := [cx 0 1; h 2]; qregs := three_qubits |}.

(** A pass on the line of seven, constructed without any limit, and its
    state after a run on the complete graph. *)
Definition pass_line7 : SamplePass :=
  sample_init (Some line7) false (Some 7%Z) None None None None None.

Definition after_k5 : SamplePass :=
  match sample_run pass_line7 still dag_k5 with
  | Ok self => self
  | Raise _ => pass_line7
  end.

(** * Properties *)

Section Properties.
Context {Target Properties ErrorMap : Type}.
Context `{!Collaborators Target Properties ErrorMap}.

Implicit Types (self : VF2Layout Target Properties ErrorMap).
Implicit Types (env : Env) (dag : DAGCircuit).
Implicit Types (cm : CouplingMap) (ig : InteractionGraph).
Implicit Types (st : SearchState) (m : list (nat * nat)).

(** ** The interaction graph builder *)

Lemma im_touch_wf ig q : ig_wf ig → ig_wf (im_touch ig q).
Proof.
  intros [Hinv Hcov]. unfold im_touch.
  destruct (im_graph_node_map ig !! q) as [i|] eqn:Hq; [done|].
  split; simpl.
  - intros q' i.
    destruct (decide (q' = q)) as [->|Hne]; destruct (decide (i = num_nodes (im_graph ig))) as [->|Hni];
      simplify_map_eq; try done.
    + split; intros Heq; [congruence|].
      apply Hinv in Heq. congruence.
    + split; intros Heq; [|congruence].
      apply Hinv, mk_is_Some, Hcov in Heq. lia.
  - intros i. destruct (decide (i = num_nodes (im_graph ig))) as [->|Hni];
      simplify_map_eq.
    + split; [lia|eauto].
    + rewrite Hcov. lia.
Qed.

Lemma im_connect_wf ig q0 q1 : ig_wf ig → ig_wf (im_connect ig q0 q1).
Proof.
  intros Hwf. unfold im_connect.
  pose proof (im_touch_wf _ q1 (im_touch_wf _ q0 Hwf)) as Hwf'.
  repeat case_match; done.
Qed.

Lemma build_interaction_graph_from_wf ops ig ig' :
  ig_wf ig → build_interaction_graph_from ig ops = Some ig' → ig_wf ig'.
Proof.
  revert ig. induction ops as [|node ops IH]; intros ig Hwf; simpl.
  - by intros [= <-].
  - destruct (qargs node) as [|q0 [|q1 [|q2 rest]]]; [eauto| | |done].
    + apply IH, im_touch_wf, Hwf.
    + apply IH, im_connect_wf, Hwf.
Qed.

Lemma build_interaction_graph_wf dag strict ig :
  build_interaction_graph dag strict = Some ig → ig_wf ig.
Proof.
  apply build_interaction_graph_from_wf. split; simpl.
  - intros q i. by rewrite !lookup_empty.
  - intros i. rewrite lookup_empty. split; [by intros []|lia].
Qed.

(** An operation on three or more qubits aborts the builder. *)
Lemma build_interaction_graph_from_abort ops ig :
  (∃ node, node ∈ ops ∧ 2 < length (qargs node)) →
  build_interaction_graph_from ig ops = None.
Proof.
  intros (node & Hin & Hlen). revert ig.
  induction ops as [|node' ops IH]; intros ig; [by apply elem_of_nil in Hin|].
  simpl. apply elem_of_cons in Hin as [<-|Hin].
  - destruct (qargs node) as [|q0 [|q1 [|q2 rest]]]; simpl in Hlen; (lia || done).
  - destruct (qargs node') as [|q0 [|q1 [|q2 rest]]]; auto.
Qed.

(** ** The coupling graph adapter *)

Lemma shuffle_coupling_graph_length cm sd entropy strict :
  length (shuffle_coupling_graph cm sd entropy strict).2
  = num_nodes (shuffle_coupling_graph cm sd entropy strict).1.
Proof.
  unfold shuffle_coupling_graph. case_bool_decide; simpl.
  - unfold node_indexes. by rewrite length_seq.
  - unfold inverse_table. by rewrite length_map, length_seq.
Qed.

(** ** Building the layout of a candidate *)

Lemma layout_dict_ok (rev : gmap nat Qubit) (cm_nodes : list nat) m acc :
  (∀ ci, ci ∈ m → ci.1 < length cm_nodes ∧ is_Some (rev !! ci.2)) →
  ∃ d, layout_dict rev cm_nodes m acc = Ok d.
Proof.
  revert acc. induction m as [|[c i] m IH]; intros acc Hm; simpl; [eauto|].
  destruct (Hm (c, i)) as [Hc [q Hq]]; [left|]. simpl in *.
  unfold getitem, getindex. rewrite Hq. simpl.
  destruct (lookup_lt_is_Some_2 cm_nodes c Hc) as [p ->]. simpl.
  apply IH. intros ci Hci. apply Hm. by right.
Qed.

Lemma candidate_layout_ok self env cm ig m :
  ig_wf ig →
  node_map_ok (search_graph self env cm) (im_graph ig) m = true →
  is_Some (candidate_layout self env cm ig m).
Proof.
  intros [_ Hcov] Hm. unfold candidate_layout, layout_of.
  destruct (layout_dict_ok (reverse_im_graph_node_map ig)
              (search_nodes self env cm) m ∅) as [d ->]; [|eauto].
  intros ci Hci. unfold node_map_ok in Hm.
  rewrite forallb_forall in Hm. apply list_elem_of_In, Hm in Hci.
  apply andb_prop in Hci as [H1 H2].
  apply Nat.ltb_lt in H1, H2. split.
  - unfold search_nodes. rewrite shuffle_coupling_graph_length. exact H1.
  - by apply Hcov.
Qed.

Lemma search_in_range_layouts self env cm ig :
  ig_wf ig → search_in_range self env cm ig = true →
  Forall (λ m, is_Some (candidate_layout self env cm ig m))
    (candidates self env cm ig).
Proof.
  intros Hwf Hr. apply Forall_forall. intros m Hm.
  apply candidate_layout_ok; [done|].
  unfold search_in_range in Hr. rewrite forallb_forall in Hr.
  by apply Hr, list_elem_of_In.
Qed.

(** ** The trials *)

Lemma paired_initial : paired initial_search_state.
Proof. done. Qed.

Lemma trial_unequal self env ig G nodes st m l :
  num_nodes G ≠ num_nodes (im_graph ig) →
  layout_of (reverse_im_graph_node_map ig) nodes m = Some l →
  clock_reads st = S (trials st) →
  paired st →
  ∃ st',
    trial self env ig G nodes st m
      = Ok (st', stops_after self env (S (trials st)))
    ∧ trials st' = S (trials st)
    ∧ best_pair st' = better (best_pair st) (l, layout_score self ig l)
    ∧ paired st'
    ∧ stop_reason st' = Some SOLUTION_FOUND
    ∧ scored st' = l :: scored st
    ∧ (stops_after self env (S (trials st)) = false →
       clock_reads st' = S (trials st')).
Proof.
  intros Hne Hl Hclock [Hp1 Hp2]. unfold trial, layout_of in *.
  destruct (layout_dict _ nodes m ∅) as [d|e]; [|done].
  injection Hl as <-. simpl.
  apply Nat.eqb_neq in Hne. rewrite Hne.
  fold (layout_score self ig (Layout_from_dict d)).
  set (s := layout_score self ig (Layout_from_dict d)).
  unfold stops_after. rewrite Hclock.
  unfold best_pair in *.
  destruct (chosen_layout st) as [c|], (chosen_layout_score st) as [b|];
    simpl in *; try done.
  - destruct (Qltb s b) eqn:Hlt; simpl;
      destruct (match max_trials self with
                | Some m0 => _ | None => false end) eqn:Hmax; simpl;
        eexists; (split; [reflexivity|]); simpl; rewrite ?Hlt;
        repeat split; try done.
  - destruct (match max_trials self with
              | Some m0 => _ | None => false end) eqn:Hmax; simpl;
      eexists; (split; [reflexivity|]); simpl; repeat split; try done.
Qed.

Lemma search_unequal self env ig G nodes ms ls :
  num_nodes G ≠ num_nodes (im_graph ig) →
  Forall2 (λ m l, layout_of (reverse_im_graph_node_map ig) nodes m = Some l)
    ms ls →
  ∀ st, clock_reads st = S (trials st) → paired st →
  ∃ st',
    search self env ig G nodes st ms = Ok st'
    ∧ trials st' = trials st + trials_run self env (trials st) (length ms)
    ∧ best_pair st'
      = best_of (best_pair st)
          ((λ l, (l, layout_score self ig l)) <$>
             take (trials_run self env (trials st) (length ms)) ls)
    ∧ paired st'
    ∧ (ms ≠ [] → stop_reason st' = Some SOLUTION_FOUND)
    ∧ scored st'
      = reverse (take (trials_run self env (trials st) (length ms)) ls)
          ++ scored st.
Proof.
  intros Hne. induction 1 as [|m l ms ls Hl Hall IH]; intros st Hclock Hp.
  - exists st. simpl. rewrite Nat.add_0_r. by split_and!.
  - destruct (trial_unequal self env ig G nodes st m l Hne Hl Hclock Hp)
      as (st1 & Htrial & Ht & Hbest & Hp1 & Hstop & Hscored & Hclock1).
    simpl. rewrite Htrial. simpl.
    destruct (stops_after self env (S (trials st))) eqn:Hs.
    + exists st1. simpl. rewrite Ht, Hbest, Hscored.
      split_and!; try done. lia.
    + destruct (IH st1 (Hclock1 eq_refl) Hp1)
        as (st' & Hsearch & Ht' & Hbest' & Hp' & Hstop' & Hscored').
      exists st'. rewrite Ht in *. simpl.
      rewrite Hsearch, Ht', Hbest', Hbest, Hscored', Hscored.
      split_and!; try done; try lia.
      * intros _. destruct ms as [|m' ms]; [|by apply Hstop'].
        inversion Hall; subst. simpl in Hsearch. by injection Hsearch as <-.
      * rewrite reverse_cons, <- app_assoc. done.
Qed.

(** With graphs of equal size the first candidate ends the loop. *)
Lemma search_equal self env ig G nodes st m ms l :
  num_nodes G = num_nodes (im_graph ig) →
  layout_of (reverse_im_graph_node_map ig) nodes m = Some l →
  search self env ig G nodes st (m :: ms)
  = Ok {| chosen_layout := Some l;
          chosen_layout_score := chosen_layout_score st;
          trials := S (trials st);
          stop_reason := Some SOLUTION_FOUND;
          clock_reads := clock_reads st;
          scored := scored st |}.
Proof.
  intros Heq Hl. simpl. unfold trial, layout_of in *.
  destruct (layout_dict _ nodes m ∅) as [d|e]; [|done].
  injection Hl as <-. simpl.
  apply Nat.eqb_eq in Heq. by rewrite Heq.
Qed.

(** ** Best-so-far bookkeeping *)

Lemma Qltb_lt (x y : Q) : Qltb x y = true ↔ (x < y)%Q.
Proof.
  unfold Qltb. rewrite negb_true_iff, <- not_true_iff_false, Qle_bool_iff.
  split; [apply Qnot_le_lt|apply Qlt_not_le].
Qed.

Lemma Qltb_ge (x y : Q) : Qltb x y = false ↔ (y <= x)%Q.
Proof.
  unfold Qltb. by rewrite negb_false_iff, Qle_bool_iff.
Qed.

Lemma best_of_snoc acc (cands : list (Layout * Q)) c :
  best_of acc (cands ++ [c]) = better (best_of acc cands) c.
Proof. unfold best_of. by rewrite foldl_app. Qed.

(** The fold retains the earliest candidate of least score. *)
Lemma best_of_earliest_least (cands : list (Layout * Q)) :
  cands ≠ [] →
  ∃ i l s,
    cands !! i = Some (l, s)
    ∧ best_of None cands = Some (l, s)
    ∧ (∀ j c, j < i → cands !! j = Some c → (s < c.2)%Q)
    ∧ (∀ j c, cands !! j = Some c → (s <= c.2)%Q).
Proof.
  induction cands as [|c cands IH] using rev_ind; [done|]. intros _.
  rewrite best_of_snoc.
  destruct cands as [|c0 cands0].
  { exists 0, c.1, c.2. destruct c as [l s]. simpl. split_and!; try done.
    - intros j c Hj. lia.
    - intros [|j] c; simpl; [|done]. intros [= <-]. simpl. lra. }
  destruct IH as (i & l & s & Hi & Hbest & Hbefore & Hall); [done|].
  remember (c0 :: cands0) as cs eqn:Hcs. clear Hcs.
  rewrite Hbest. simpl.
  destruct (Qltb c.2 s) eqn:Hlt.
  - apply Qltb_lt in Hlt.
    exists (length cs), c.1, c.2. split_and!.
    + rewrite lookup_app_r, Nat.sub_diag by lia. by destruct c.
    + by destruct c.
    + intros j c' Hj Hc'. rewrite lookup_app_l in Hc' by done.
      apply Hall in Hc'. lra.
    + intros j c' Hc'. apply lookup_app_Some in Hc' as [Hc'|[Hj Hc']].
      * apply Hall in Hc'. lra.
      * destruct (j - length cs); simpl in Hc'; [|done].
        injection Hc' as <-. lra.
  - apply Qltb_ge in Hlt.
    exists i, l, s. split_and!; try done.
    + rewrite lookup_app_l; [done|]. by eapply lookup_lt_Some.
    + intros j c' Hj Hc'.
      assert (i < length cs) by by eapply lookup_lt_Some.
      rewrite lookup_app_l in Hc' by lia. by eapply Hbefore.
    + intros j c' Hc'. apply lookup_app_Some in Hc' as [Hc'|[Hj Hc']].
      * by eapply Hall.
      * destruct (j - length cs); simpl in Hc'; [|done].
        by injection Hc' as <-.
Qed.

(** ** Counting the trials *)

Lemma trials_run_le self env t n : trials_run self env t n ≤ n.
Proof.
  revert t. induction n as [|n IH]; intros t; simpl; [done|].
  destruct (stops_after self env (S t)); [lia|]. specialize (IH (S t)). lia.
Qed.

Lemma trials_run_pos self env t n : 0 < n → 0 < trials_run self env t n.
Proof.
  destruct n; [lia|]. intros _. simpl.
  destruct (stops_after self env (S t)); lia.
Qed.

(** Without a time limit a positive trial limit is the only brake. *)
Lemma trials_run_cap self env (cap : nat) t n :
  time_limit self = None → max_trials self = Some (Z.of_nat cap) →
  t < cap →
  trials_run self env t n = Nat.min n (cap - t).
Proof.
  intros Htime Hmax. revert t.
  induction n as [|n IH]; intros t Ht; cbn [trials_run].
  - done.
  - unfold stops_after. rewrite Htime, Hmax, orb_false_r.
    destruct (0 <? Z.of_nat cap)%Z eqn:Hpos; [|apply Z.ltb_ge in Hpos; lia].
    cbn [andb]. destruct (Z.of_nat cap <=? Z.of_nat (S t))%Z eqn:Hle.
    + apply Z.leb_le in Hle. lia.
    + apply Z.leb_gt in Hle. rewrite IH by lia. lia.
Qed.

(** A larger positive trial limit never shortens the search. *)
Lemma trials_run_mono self env (m1 m2 : Z) t n :
  (0 < m1)%Z → (m1 ≤ m2)%Z →
  trials_run (set_max_trials self (Some m1)) env t n
  ≤ trials_run (set_max_trials self (Some m2)) env t n.
Proof.
  intros Hpos Hle. revert t. induction n as [|n IH]; intros t; simpl; [done|].
  unfold stops_after. simpl.
  destruct (match time_limit self with
            | Some limit => _ | None => false end);
    rewrite ?orb_true_r, ?orb_false_r; [done|].
  destruct (0 <? m1)%Z eqn:H1; [|apply Z.ltb_ge in H1; lia].
  destruct (0 <? m2)%Z eqn:H2; [|apply Z.ltb_ge in H2; lia].
  simpl.
  destruct (m1 <=? Z.of_nat (S t))%Z eqn:Hm1,
           (m2 <=? Z.of_nat (S t))%Z eqn:Hm2;
    specialize (IH (S t));
    pose proof (trials_run_le (set_max_trials self (Some m2)) env (S t) n);
    pose proof (trials_run_le (set_max_trials self (Some m1)) env (S t) n);
    rewrite ?Z.leb_le, ?Z.leb_gt in Hm1, Hm2; lia.
Qed.

(** ** The search phase as a whole *)

Lemma default_max_trials_frame self cm ig :
  target (default_max_trials self cm ig) = target self
  ∧ coupling_map (default_max_trials self cm ig) = coupling_map self
  ∧ properties (default_max_trials self cm ig) = properties self
  ∧ strict_direction (default_max_trials self cm ig) = strict_direction self
  ∧ seed (default_max_trials self cm ig) = seed self
  ∧ call_limit (default_max_trials self cm ig) = call_limit self
  ∧ time_limit (default_max_trials self cm ig) = time_limit self
  ∧ avg_error_map (default_max_trials self cm ig) = avg_error_map self
  ∧ property_set (default_max_trials self cm ig) = property_set self.
Proof.
  unfold default_max_trials.
  destruct (max_trials self) eqn:?, (call_limit self) eqn:?,
    (time_limit self) eqn:?; by split_and!.
Qed.

Lemma ensure_avg_error_map_frame self cm :
  target (ensure_avg_error_map self cm) = target self
  ∧ coupling_map (ensure_avg_error_map self cm) = coupling_map self
  ∧ properties (ensure_avg_error_map self cm) = properties self
  ∧ strict_direction (ensure_avg_error_map self cm) = strict_direction self
  ∧ seed (ensure_avg_error_map self cm) = seed self
  ∧ call_limit (ensure_avg_error_map self cm) = call_limit self
  ∧ time_limit (ensure_avg_error_map self cm) = time_limit self
  ∧ max_trials (ensure_avg_error_map self cm) = max_trials self
  ∧ property_set (ensure_avg_error_map self cm) = property_set self.
Proof.
  unfold ensure_avg_error_map. destruct (avg_error_map self); by split_and!.
Qed.

Lemma layout_score_default self cm ig l :
  layout_score (default_max_trials self cm ig) ig l = layout_score self ig l.
Proof.
  unfold layout_score.
  destruct (default_max_trials_frame self cm ig)
    as (_ & _ & _ & -> & _ & _ & _ & -> & _). done.
Qed.

Lemma search_graph_ensure self env cm cm' :
  search_graph (ensure_avg_error_map self cm') env cm = search_graph self env cm.
Proof.
  unfold search_graph.
  destruct (ensure_avg_error_map_frame self cm')
    as (_ & _ & _ & -> & -> & _). done.
Qed.

Lemma search_nodes_ensure self env cm cm' :
  search_nodes (ensure_avg_error_map self cm') env cm = search_nodes self env cm.
Proof.
  unfold search_nodes.
  destruct (ensure_avg_error_map_frame self cm')
    as (_ & _ & _ & -> & -> & _). done.
Qed.

Lemma candidates_ensure self env cm cm' ig :
  candidates (ensure_avg_error_map self cm') env cm ig
  = candidates self env cm ig.
Proof.
  unfold candidates. rewrite search_graph_ensure.
  destruct (ensure_avg_error_map_frame self cm')
    as (_ & _ & _ & _ & _ & -> & _). done.
Qed.

Lemma candidate_layout_ensure self env cm cm' ig m :
  candidate_layout (ensure_avg_error_map self cm') env cm ig m
  = candidate_layout self env cm ig m.
Proof. unfold candidate_layout. by rewrite search_nodes_ensure. Qed.

Lemma search_in_range_ensure self env cm cm' ig :
  search_in_range (ensure_avg_error_map self cm') env cm ig
  = search_in_range self env cm ig.
Proof.
  unfold search_in_range. by rewrite candidates_ensure, search_graph_ensure.
Qed.

Lemma search_phase_unfold self env cm ig :
  search_phase self env cm ig
  = (st ←! search (default_max_trials self cm ig) env ig
             (search_graph self env cm) (search_nodes self env cm)
             initial_search_state (candidates self env cm ig);
     Ok (default_max_trials self cm ig, st)).
Proof.
  unfold search_phase, candidates, search_graph, search_nodes.
  destruct (shuffle_coupling_graph _ _ _ _) as [G nodes]. simpl.
  destruct (default_max_trials_frame self cm ig)
    as (_ & _ & _ & _ & _ & -> & _). done.
Qed.

Lemma Forall_is_Some_Forall2 {A B} (f : A → option B) (xs : list A) :
  Forall (λ x, is_Some (f x)) xs →
  ∃ ys, Forall2 (λ x y, f x = Some y) xs ys.
Proof.
  induction 1 as [|x xs [y Hy] _ [ys IH]]; [by exists []|].
  exists (y :: ys). by constructor.
Qed.

Lemma search_phase_equal self env cm ig m rest :
  num_nodes (search_graph self env cm) = num_nodes (im_graph ig) →
  candidates self env cm ig = m :: rest →
  ∀ l, candidate_layout self env cm ig m = Some l →
  search_phase self env cm ig
  = Ok (default_max_trials self cm ig, shortcut_state l).
Proof.
  intros Heq Hms l Hl. rewrite search_phase_unfold, Hms.
  by rewrite (search_equal _ _ _ _ _ _ _ _ l Heq Hl).
Qed.

Lemma search_phase_unequal self env cm ig :
  ig_wf ig → search_in_range self env cm ig = true →
  num_nodes (search_graph self env cm) ≠ num_nodes (im_graph ig) →
  ∃ st ls,
    search_phase self env cm ig = Ok (default_max_trials self cm ig, st)
    ∧ Forall2 (λ m l, candidate_layout self env cm ig m = Some l)
        (candidates self env cm ig) ls
    ∧ trials st
      = trials_run (default_max_trials self cm ig) env 0
          (length (candidates self env cm ig))
    ∧ best_pair st
      = best_of None ((λ l, (l, layout_score self ig l)) <$>
                        take (trials st) ls)
    ∧ paired st
    ∧ (candidates self env cm ig ≠ [] →
       stop_reason st = Some SOLUTION_FOUND)
    ∧ scored st = reverse (take (trials st) ls).
Proof.
  intros Hwf Hr Hne.
  destruct (Forall_is_Some_Forall2 _ _ (search_in_range_layouts _ _ _ _ Hwf Hr))
    as [ls Hls].
  destruct (search_unequal (default_max_trials self cm ig) env ig _
              (search_nodes self env cm) _ ls Hne Hls initial_search_state
              eq_refl paired_initial)
    as (st & Hsearch & Ht & Hbest & Hp & Hstop & Hscored).
  exists st, ls. rewrite search_phase_unfold, Hsearch. simpl in *.
  rewrite Ht, Hbest, Hscored, app_nil_r. split_and!; try done.
  f_equal. apply list_fmap_ext. intros _ l _.
  by rewrite layout_score_default.
Qed.

Lemma run_enters_search self env dag cm ig :
  coupling_map self = Some cm →
  build_interaction_graph dag (strict_direction self) = Some ig →
  run self env dag
  = ('(self', st) ←! search_phase (ensure_avg_error_map self cm) env cm ig;
     publish self' dag st).
Proof.
  intros Hcm Hig. unfold run. rewrite Hcm.
  destruct (ensure_avg_error_map_frame self cm)
    as (_ & _ & _ & -> & _). by rewrite Hig.
Qed.

(** ** Extending a layout by registers *)

Lemma Layout_add_register_extends l reg :
  v2p l ⊆ v2p (Layout_add_register l reg).
Proof.
  revert l. induction reg as [|bit reg IH]; intros l; simpl; [done|].
  destruct (v2p l !! bit) eqn:Hbit; [apply IH|].
  etrans; [|apply IH]. simpl. by apply insert_subseteq.
Qed.

Lemma Layout_add_register_covers l reg bit :
  bit ∈ reg → is_Some (v2p (Layout_add_register l reg) !! bit).
Proof.
  revert l. induction reg as [|bit' reg IH]; intros l Hin;
    [by apply elem_of_nil in Hin|].
  apply elem_of_cons in Hin as [<-|Hin]; [|by apply IH].
  simpl.
  assert (∃ l', is_Some (v2p l' !! bit) ∧
            (match v2p l !! bit with
             | Some _ => l | None => Layout_add l bit end) = l')
    as (l' & [p Hp] & ->).
  { eexists; split; [|done].
    destruct (v2p l !! bit) eqn:Hbit; [eauto|].
    simpl. rewrite lookup_insert_eq. eauto. }
  exists p. eapply lookup_weaken; [done|apply Layout_add_register_extends].
Qed.

Lemma add_registers_extends l dag : v2p l ⊆ v2p (add_registers l dag).
Proof.
  unfold add_registers. generalize (qregs dag) as regs. intros regs.
  revert l. induction regs as [|reg regs IH]; intros l; simpl; [done|].
  etrans; [|apply IH]. apply Layout_add_register_extends.
Qed.

Lemma add_registers_covers l dag reg bit :
  reg ∈ qregs dag → bit ∈ reg.2 →
  is_Some (v2p (add_registers l dag) !! bit).
Proof.
  unfold add_registers. generalize (qregs dag) as regs. intros regs.
  revert l. induction regs as [|reg' regs IH]; intros l Hreg Hbit;
    [by apply elem_of_nil in Hreg|].
  apply elem_of_cons in Hreg as [<-|Hreg]; [|by apply IH].
  simpl.
  destruct (Layout_add_register_covers l reg.2 bit Hbit) as [p Hp].
  exists p. eapply lookup_weaken; [done|].
  apply (add_registers_extends _ {| op_nodes := []; qregs := regs |}).
Qed.

(** ** Outcomes of [run] *)

(** C2: a circuit with an operation on three or more qubits makes [run]
    return with the stop reason [MORE_THAN_2Q] and no other write to the
    property set (no layout key), whatever the coupling map; the search
    phase is not entered: the final state is the initial one with the
    error map cached and the stop reason set, and it is the same for
    every matching engine, scorer, shuffle and environment. *)
Theorem run_more_than_2q self env dag cm :
  coupling_map self = Some cm →
  (∃ node, node ∈ op_nodes dag ∧ 2 < length (qargs node)) →
  ∃ self',
    run self env dag = Ok self'
    ∧ self' = set_property (ensure_avg_error_map self cm)
                "VF2Layout_stop_reason" (PVStopReason MORE_THAN_2Q)
    ∧ property_set self'
      = <["VF2Layout_stop_reason"%string := PVStopReason MORE_THAN_2Q]>
          (property_set self)
    ∧ property_set self' !! "layout"%string
      = property_set self !! "layout"%string
    ∧ max_trials self' = max_trials self
    ∧ ∀ (other : Collaborators Target Properties ErrorMap) env',
        build_average_error_map (Collaborators := other)
        = build_average_error_map (Collaborators := Collaborators0) →
        run (Collaborators0 := other) self env' dag = Ok self'.
Proof.
  intros Hcm Hop. eexists. split_and!; [|reflexivity|..].
  - unfold run. rewrite Hcm. unfold build_interaction_graph.
    by rewrite build_interaction_graph_from_abort.
  - simpl. by destruct (ensure_avg_error_map_frame self cm)
      as (_ & _ & _ & _ & _ & _ & _ & _ & ->).
  - simpl. rewrite lookup_insert_ne by done.
    by destruct (ensure_avg_error_map_frame self cm)
      as (_ & _ & _ & _ & _ & _ & _ & _ & ->).
  - simpl. by destruct (ensure_avg_error_map_frame self cm)
      as (_ & _ & _ & _ & _ & _ & _ & -> & _).
  - intros other env' Hbuild. unfold run. rewrite Hcm.
    unfold build_interaction_graph.
    rewrite build_interaction_graph_from_abort by done.
    unfold ensure_avg_error_map. by rewrite Hbuild.
Qed.

Lemma publish_property_set self dag st :
  (chosen_layout st = None ∨ is_Some (stop_reason st)) →
  ∃ self',
    publish self dag st = Ok self'
    ∧ max_trials self' = max_trials self
    ∧ avg_error_map self' = avg_error_map self
    ∧ property_set self'
      = match chosen_layout st with
        | None =>
            <["VF2Layout_stop_reason"%string :=
                PVStopReason NO_SOLUTION_FOUND]> (property_set self)
        | Some chosen =>
            <["VF2Layout_stop_reason"%string :=
                PVStopReason (default SOLUTION_FOUND (stop_reason st))]>
              (<["layout"%string := PVLayout (add_registers chosen dag)]>
                 (property_set self))
        end.
Proof.
  intros Hst. unfold publish.
  destruct (chosen_layout st) as [chosen|]; [|by eexists].
  destruct Hst as [|[r ->]]; [done|]. by eexists.
Qed.

(** What the loop leaves behind, in both size regimes. *)
Lemma search_phase_outcome self env cm ig :
  ig_wf ig → search_in_range self env cm ig = true →
  ∃ st,
    search_phase self env cm ig = Ok (default_max_trials self cm ig, st)
    ∧ (candidates self env cm ig = [] → chosen_layout st = None)
    ∧ (candidates self env cm ig ≠ [] →
       is_Some (chosen_layout st) ∧ stop_reason st = Some SOLUTION_FOUND).
Proof.
  intros Hwf Hr.
  destruct (decide (num_nodes (search_graph self env cm)
                    = num_nodes (im_graph ig))) as [Heq|Hne].
  - destruct (candidates self env cm ig) as [|m rest] eqn:Hms.
    + exists initial_search_state. rewrite search_phase_unfold, Hms.
      by split_and!.
    + pose proof (search_in_range_layouts _ _ _ _ Hwf Hr) as Hall.
      rewrite Hms in Hall. apply Forall_cons in Hall as [[l Hl] _].
      exists (shortcut_state l).
      rewrite (search_phase_equal _ _ _ _ _ _ Heq Hms l Hl).
      split_and!; [done|done|]. intros _. simpl. eauto.
  - destruct (search_phase_unequal _ _ _ _ Hwf Hr Hne)
      as (st & ls & Hsearch & Hls & Ht & Hbest & [Hp _] & Hstop & _).
    exists st. split_and!; [done|..].
    + intros Hms. rewrite Hms in Hls. apply Forall2_nil_inv_l in Hls as ->.
      rewrite take_nil in Hbest. simpl in Hbest. by rewrite Hp, Hbest.
    + intros Hms. split; [|by apply Hstop].
      pose proof (Forall2_length _ _ _ Hls) as Hlen.
      destruct (best_of_earliest_least
                  ((λ l, (l, layout_score self ig l)) <$> take (trials st) ls))
        as (i & l & s & _ & Hb & _).
      { intros Hnil. apply fmap_nil_inv in Hnil.
        apply (f_equal length) in Hnil. rewrite length_take in Hnil.
        simpl in Hnil.
        pose proof (trials_run_pos (default_max_trials self cm ig) env 0
                      (length (candidates self env cm ig))) as Hpos.
        destruct (candidates self env cm ig); [done|]. simpl in *. lia. }
      rewrite Hp, Hbest, Hb. simpl. eauto.
Qed.

Lemma run_returns_searching self env dag cm ig :
  coupling_map self = Some cm →
  build_interaction_graph dag (strict_direction self) = Some ig →
  engine_in_range self env dag = true →
  ∃ self', run self env dag = Ok self'.
Proof.
  intros Hcm Hig Hr. unfold engine_in_range in Hr. rewrite Hcm, Hig in Hr.
  pose proof (build_interaction_graph_wf _ _ _ Hig) as Hwf.
  destruct (search_phase_outcome (ensure_avg_error_map self cm) env cm ig Hwf)
    as (st & Hsearch & Hnil & Hcons).
  { by rewrite search_in_range_ensure. }
  destruct (publish_property_set
              (default_max_trials (ensure_avg_error_map self cm) cm ig) dag st)
    as (self' & Hpub & _).
  { destruct (candidates (ensure_avg_error_map self cm) env cm ig)
      as [|m rest].
    - left. by apply Hnil.
    - right. destruct Hcons as [_ ->]; [done|]. eauto. }
  exists self'. by rewrite (run_enters_search _ _ _ _ _ Hcm Hig), Hsearch.
Qed.

(** C3: once the search phase is entered, [run] returns; the stop reason
    is [NO_SOLUTION_FOUND] exactly when the engine yields no candidate,
    and then the stop reason is the only key written; with at least one
    candidate the stop reason is [SOLUTION_FOUND] and the layout key
    holds the layout retained by the loop, extended so that it covers
    every qubit of every register of the circuit. *)
Theorem stop_reason_and_publication self env dag cm ig :
  coupling_map self = Some cm →
  build_interaction_graph dag (strict_direction self) = Some ig →
  engine_in_range self env dag = true →
  ∃ self' st,
    search_phase (ensure_avg_error_map self cm) env cm ig
    = Ok (default_max_trials (ensure_avg_error_map self cm) cm ig, st)
    ∧ run self env dag = Ok self'
    ∧ (property_set self' !! "VF2Layout_stop_reason"%string
       = Some (PVStopReason NO_SOLUTION_FOUND)
       ↔ candidates self env cm ig = [])
    ∧ (candidates self env cm ig = [] →
       property_set self'
       = <["VF2Layout_stop_reason"%string :=
             PVStopReason NO_SOLUTION_FOUND]> (property_set self))
    ∧ (candidates self env cm ig ≠ [] →
       ∃ chosen,
         chosen_layout st = Some chosen
         ∧ property_set self' !! "VF2Layout_stop_reason"%string
           = Some (PVStopReason SOLUTION_FOUND)
         ∧ property_set self' !! "layout"%string
           = Some (PVLayout (add_registers chosen dag))
         ∧ v2p chosen ⊆ v2p (add_registers chosen dag)
         ∧ ∀ reg bit, reg ∈ qregs dag → bit ∈ reg.2 →
             is_Some (v2p (add_registers chosen dag) !! bit)).
Proof.
  intros Hcm Hig Hr. unfold engine_in_range in Hr. rewrite Hcm, Hig in Hr.
  pose proof (build_interaction_graph_wf _ _ _ Hig) as Hwf.
  set (self1 := ensure_avg_error_map self cm).
  destruct (search_phase_outcome self1 env cm ig Hwf) as (st & Hsearch & Hnil & Hcons).
  { subst self1. by rewrite search_in_range_ensure. }
  subst self1. rewrite candidates_ensure in Hnil, Hcons.
  set (self1 := ensure_avg_error_map self cm) in *.
  destruct (publish_property_set (default_max_trials self1 cm ig) dag st)
    as (self' & Hpub & _ & _ & Hps).
  { destruct (candidates self env cm ig) as [|m rest].
    - left. by apply Hnil.
    - right. destruct Hcons as [_ ->]; [done|]. eauto. }
  assert (property_set (default_max_trials self1 cm ig) = property_set self)
    as Hframe.
  { destruct (default_max_trials_frame self1 cm ig)
      as (_ & _ & _ & _ & _ & _ & _ & _ & ->).
    unfold self1. by destruct (ensure_avg_error_map_frame self cm)
      as (_ & _ & _ & _ & _ & _ & _ & _ & ->). }
  rewrite Hframe in Hps.
  exists self', st. split_and!; [done|..].
  - rewrite (run_enters_search _ _ _ _ _ Hcm Hig). fold self1.
    rewrite Hsearch. exact Hpub.
  - rewrite Hps. split.
    + intros Hlook. destruct (candidates self env cm ig) as [|m rest]; [done|].
      destruct Hcons as [[chosen Hchosen] Hstop]; [done|].
      rewrite Hchosen, Hstop in Hlook. simpl in Hlook.
      by rewrite lookup_insert_eq in Hlook.
    + intros Hms. rewrite (Hnil Hms). by rewrite lookup_insert_eq.
  - intros Hms. by rewrite Hps, (Hnil Hms).
  - intros Hms. destruct (Hcons Hms) as [[chosen Hchosen] Hstop].
    exists chosen. rewrite Hps, Hchosen, Hstop. simpl. split_and!.
    + done.
    + by rewrite lookup_insert_eq.
    + rewrite lookup_insert_ne by done. by rewrite lookup_insert_eq.
    + apply add_registers_extends.
    + intros reg bit. apply add_registers_covers.
Qed.

(** C4: with an interaction graph and a coupling graph of equal node
    counts and an engine that yields at least one embedding, the loop
    ends after its first trial with the layout of the first candidate as
    the chosen one, no score computed for any layout, whatever the later
    candidates are; that layout, extended by the registers, is
    published. *)
Theorem equal_size_shortcut self env dag cm ig m rest :
  coupling_map self = Some cm →
  build_interaction_graph dag (strict_direction self) = Some ig →
  num_nodes (search_graph self env cm) = num_nodes (im_graph ig) →
  candidates self env cm ig = m :: rest →
  node_map_ok (search_graph self env cm) (im_graph ig) m = true →
  ∃ l st self',
    candidate_layout self env cm ig m = Some l
    ∧ search_phase (ensure_avg_error_map self cm) env cm ig
      = Ok (default_max_trials (ensure_avg_error_map self cm) cm ig, st)
    ∧ chosen_layout st = Some l
    ∧ trials st = 1
    ∧ scored st = []
    ∧ chosen_layout_score st = None
    ∧ run self env dag = Ok self'
    ∧ property_set self' !! "layout"%string
      = Some (PVLayout (add_registers l dag))
    ∧ property_set self' !! "VF2Layout_stop_reason"%string
      = Some (PVStopReason SOLUTION_FOUND).
Proof.
  intros Hcm Hig Heq Hms Hm.
  pose proof (build_interaction_graph_wf _ _ _ Hig) as Hwf.
  destruct (candidate_layout_ok self env cm ig m Hwf Hm) as [l Hl].
  set (self1 := ensure_avg_error_map self cm).
  assert (search_phase self1 env cm ig
          = Ok (default_max_trials self1 cm ig, shortcut_state l)) as Hsearch.
  { apply (search_phase_equal self1 env cm ig m rest).
    - subst self1. by rewrite search_graph_ensure.
    - subst self1. by rewrite candidates_ensure.
    - subst self1. by rewrite candidate_layout_ensure. }
  exists l, (shortcut_state l). eexists.
  split_and!; try done.
  - rewrite (run_enters_search _ _ _ _ _ Hcm Hig). fold self1.
    rewrite Hsearch. reflexivity.
  - simpl. rewrite lookup_insert_ne by done. by rewrite lookup_insert_eq.
  - simpl. by rewrite lookup_insert_eq.
Qed.

(** ** The retained layout when scores are compared *)

(** Among the candidates tried, the retained one is the earliest of
    least score. *)
Lemma search_phase_earliest_least self env cm ig :
  ig_wf ig → search_in_range self env cm ig = true →
  num_nodes (search_graph self env cm) ≠ num_nodes (im_graph ig) →
  candidates self env cm ig ≠ [] →
  ∃ st i m l,
    search_phase self env cm ig = Ok (default_max_trials self cm ig, st)
    ∧ trials st
      = trials_run (default_max_trials self cm ig) env 0
          (length (candidates self env cm ig))
    ∧ i < trials st
    ∧ candidates self env cm ig !! i = Some m
    ∧ candidate_layout self env cm ig m = Some l
    ∧ chosen_layout st = Some l
    ∧ chosen_layout_score st = Some (layout_score self ig l)
    ∧ (∀ j m' l', j < i →
         candidates self env cm ig !! j = Some m' →
         candidate_layout self env cm ig m' = Some l' →
         (layout_score self ig l < layout_score self ig l')%Q)
    ∧ (∀ j m' l', j < trials st →
         candidates self env cm ig !! j = Some m' →
         candidate_layout self env cm ig m' = Some l' →
         (layout_score self ig l <= layout_score self ig l')%Q).
Proof.
  intros Hwf Hr Hne Hms.
  destruct (search_phase_unequal _ _ _ _ Hwf Hr Hne)
    as (st & ls & Hsearch & Hls & Ht & Hbest & [Hp1 Hp2] & _ & _).
  pose proof (Forall2_length _ _ _ Hls) as Hlen.
  pose proof (trials_run_le (default_max_trials self cm ig) env 0
                (length (candidates self env cm ig))) as Hle.
  rewrite <- Ht in Hle.
  set (f := λ l : Layout, (l, layout_score self ig l)) in *.
  destruct (best_of_earliest_least (f <$> take (trials st) ls))
    as (i & l & s & Hi & Hb & Hbefore & Hall).
  { intros Hnil. apply fmap_nil_inv in Hnil.
    apply (f_equal length) in Hnil. rewrite length_take in Hnil.
    simpl in Hnil.
    pose proof (trials_run_pos (default_max_trials self cm ig) env 0
                  (length (candidates self env cm ig))) as Hpos.
    destruct (candidates self env cm ig); [done|]. simpl in *. lia. }
  rewrite list_lookup_fmap in Hi.
  destruct (take (trials st) ls !! i) as [l0|] eqn:Hl0; [|done].
  simpl in Hi. injection Hi as -> <-.
  apply lookup_take_Some in Hl0 as [Hl0 Hit].
  destruct (Forall2_lookup_r _ _ _ _ _ Hls Hl0) as (m & Hm & Hml).
  assert (∀ j m' l', j < trials st →
            candidates self env cm ig !! j = Some m' →
            candidate_layout self env cm ig m' = Some l' →
            (f <$> take (trials st) ls) !! j = Some (f l')) as Hlook.
  { intros j m' l' Hj Hm' Hl'.
    destruct (Forall2_lookup_l _ _ _ _ _ Hls Hm') as (l'' & Hl'' & Heq).
    rewrite Hl' in Heq. injection Heq as <-.
    rewrite list_lookup_fmap, lookup_take_lt by done. by rewrite Hl''. }
  exists st, i, m, l. rewrite Hp1, Hp2, Hbest, Hb.
  split_and!; try done.
  - intros j m' l' Hj Hm' Hl'.
    apply (Hbefore j (f l')); [done|]. apply (Hlook j m'); [lia|done..].
  - intros j m' l' Hj Hm' Hl'.
    apply (Hall j (f l')). by apply (Hlook j m').
Qed.

(** C5: when the two graphs differ in node count, the layout retained at
    the end of the trials is that of the earliest tried candidate whose
    score is the least one: a candidate replaces the retained one only
    when it is the first or scores strictly lower, so of two candidates
    of identical score the earlier stays. *)
Theorem retained_is_earliest_least self env dag cm ig :
  build_interaction_graph dag (strict_direction self) = Some ig →
  search_in_range self env cm ig = true →
  num_nodes (search_graph self env cm) ≠ num_nodes (im_graph ig) →
  candidates self env cm ig ≠ [] →
  ∃ st i m l,
    search_phase self env cm ig = Ok (default_max_trials self cm ig, st)
    ∧ i < trials st
    ∧ candidates self env cm ig !! i = Some m
    ∧ candidate_layout self env cm ig m = Some l
    ∧ chosen_layout st = Some l
    ∧ chosen_layout_score st = Some (layout_score self ig l)
    ∧ (∀ j m' l', j < i →
         candidates self env cm ig !! j = Some m' →
         candidate_layout self env cm ig m' = Some l' →
         (layout_score self ig l < layout_score self ig l')%Q)
    ∧ (∀ j m' l', j < trials st →
         candidates self env cm ig !! j = Some m' →
         candidate_layout self env cm ig m' = Some l' →
         (layout_score self ig l <= layout_score self ig l')%Q).
Proof.
  intros Hig Hr Hne Hms.
  pose proof (build_interaction_graph_wf _ _ _ Hig) as Hwf.
  destruct (search_phase_earliest_least self env cm ig Hwf Hr Hne Hms)
    as (st & i & m & l & H).
  exists st, i, m, l. tauto.
Qed.

(** ** The trial limit *)

(** X11: when the instance enters the search with its attributes
    [max_trials], [call_limit] and [time_limit] all [None] (as on the first
    run of a pass constructed without limits), the loop runs under the
    limit max(edges of the interaction graph, edges of the coupling
    graph) + 15: the search is the one of an instance configured with
    that limit, and it makes that many trials unless the candidates run
    out first (or the graphs have equal node counts, where one trial is
    made). *)
Theorem derived_default_trial_cap self env dag cm ig :
  build_interaction_graph dag (strict_direction self) = Some ig →
  search_in_range self env cm ig = true →
  max_trials self = None → call_limit self = None → time_limit self = None →
  ∃ st,
    let cap := Nat.max (length (edge_list (im_graph ig)))
                 (length (edge_list (graph cm))) + 15 in
    let limited := set_max_trials self (Some (Z.of_nat cap)) in
    search_phase self env cm ig = Ok (limited, st)
    ∧ search_phase limited env cm ig = Ok (limited, st)
    ∧ trials st
      = if decide (num_nodes (search_graph self env cm)
                   = num_nodes (im_graph ig))
        then Nat.min 1 (length (candidates self env cm ig))
        else Nat.min (length (candidates self env cm ig)) cap.
Proof.
  intros Hig Hr Hmax Hcall Htime.
  pose proof (build_interaction_graph_wf _ _ _ Hig) as Hwf.
  set (cap := Nat.max (length (edge_list (im_graph ig)))
                (length (edge_list (graph cm))) + 15).
  assert (default_max_trials self cm ig
          = set_max_trials self (Some (Z.of_nat cap))) as Hdef.
  { unfold default_max_trials. rewrite Hmax, Hcall, Htime.
    subst cap. by rewrite Nat2Z.inj_add. }
  assert (search_phase (set_max_trials self (Some (Z.of_nat cap))) env cm ig
          = search_phase self env cm ig) as Hsame.
  { rewrite !search_phase_unfold, Hdef. reflexivity. }
  cbv zeta. fold cap. rewrite Hsame.
  destruct (decide (num_nodes (search_graph self env cm)
                    = num_nodes (im_graph ig))) as [Heq|Hne].
  - destruct (candidates self env cm ig) as [|m rest] eqn:Hms.
    + exists initial_search_state.
      rewrite search_phase_unfold, Hms, Hdef. by split_and!.
    + pose proof (search_in_range_layouts _ _ _ _ Hwf Hr) as Hall.
      rewrite Hms in Hall. apply Forall_cons in Hall as [[l Hl] _].
      exists (shortcut_state l).
      rewrite (search_phase_equal _ _ _ _ _ _ Heq Hms l Hl), Hdef.
      by split_and!.
  - destruct (search_phase_unequal _ _ _ _ Hwf Hr Hne)
      as (st & ls & Hsearch & _ & Ht & _).
    exists st. rewrite Hsearch, Hdef. split_and!; [done..|].
    rewrite Ht, Hdef.
    rewrite (trials_run_cap _ env cap) by (done || subst cap; lia).
    by rewrite Nat.sub_0_r.
Qed.

(** C10 (amended): for positive trial limits [m1 ≤ m2], everything else
    (circuit, coupling map, seed, candidates, clock readings) being the
    same, both searches choose a layout and the score of the layout
    chosen under [m2] is at most that of the layout chosen under [m1]. *)
Theorem larger_positive_max_trials_never_worse self env dag cm ig
    (m1 m2 : Z) :
  build_interaction_graph dag (strict_direction self) = Some ig →
  search_in_range self env cm ig = true →
  candidates self env cm ig ≠ [] →
  (0 < m1)%Z → (m1 ≤ m2)%Z →
  ∃ st1 l1 st2 l2,
    search_phase (set_max_trials self (Some m1)) env cm ig
    = Ok (set_max_trials self (Some m1), st1)
    ∧ chosen_layout st1 = Some l1
    ∧ search_phase (set_max_trials self (Some m2)) env cm ig
      = Ok (set_max_trials self (Some m2), st2)
    ∧ chosen_layout st2 = Some l2
    ∧ (layout_score self ig l2 <= layout_score self ig l1)%Q.
Proof.
  intros Hig Hr Hms Hpos Hle.
  pose proof (build_interaction_graph_wf _ _ _ Hig) as Hwf.
  destruct (decide (num_nodes (search_graph self env cm)
                    = num_nodes (im_graph ig))) as [Heq|Hne].
  - destruct (candidates self env cm ig) as [|m rest] eqn:Hcands; [done|].
    pose proof (search_in_range_layouts _ _ _ _ Hwf Hr) as Hall.
    rewrite Hcands in Hall. apply Forall_cons in Hall as [[l Hl] _].
    exists (shortcut_state l), l, (shortcut_state l), l.
    rewrite (search_phase_equal (set_max_trials self (Some m1)) env cm ig
               m rest Heq Hcands l Hl).
    rewrite (search_phase_equal (set_max_trials self (Some m2)) env cm ig
               m rest Heq Hcands l Hl).
    split_and!; try done. apply Qle_refl.
  - destruct (search_phase_earliest_least (set_max_trials self (Some m1))
                env cm ig Hwf Hr Hne Hms)
      as (st1 & i1 & c1 & l1 & Hs1 & Ht1 & Hi1 & Hc1 & Hl1 & Hch1 & _).
    destruct (search_phase_earliest_least (set_max_trials self (Some m2))
                env cm ig Hwf Hr Hne Hms)
      as (st2 & i2 & c2 & l2 & Hs2 & Ht2 & _ & _ & _ & Hch2 & _ & _ & Hall2).
    exists st1, l1, st2, l2. split_and!; try done.
    apply (Hall2 i1 c1 l1); [|done..].
    pose proof (trials_run_mono self env m1 m2 0
                  (length (candidates self env cm ig)) Hpos Hle) as Hmono.
    change (default_max_trials (set_max_trials self (Some m1)) cm ig)
      with (set_max_trials self (Some m1)) in Ht1.
    change (default_max_trials (set_max_trials self (Some m2)) cm ig)
      with (set_max_trials self (Some m2)) in Ht2.
    change (candidates (set_max_trials self (Some m1)) env cm ig)
      with (candidates self env cm ig) in Ht1.
    change (candidates (set_max_trials self (Some m2)) env cm ig)
      with (candidates self env cm ig) in Ht2.
    lia.
Qed.

(** ** Determinism *)

Lemma search_env_irrelevant self env1 env2 ig G nodes ms :
  time_limit self = None →
  ∀ st, search self env1 ig G nodes st ms = search self env2 ig G nodes st ms.
Proof.
  intros Htime. induction ms as [|m ms IH]; intros st; simpl; [done|].
  assert (trial self env1 ig G nodes st m = trial self env2 ig G nodes st m)
    as ->.
  { unfold trial. by rewrite Htime. }
  destruct (trial self env2 ig G nodes st m) as [[st' []]|e]; simpl; auto.
Qed.

Lemma shuffle_seeded cm (s : Z) e1 e2 strict :
  shuffle_coupling_graph cm (Some s) e1 strict
  = shuffle_coupling_graph cm (Some s) e2 strict.
Proof. done. Qed.

Lemma search_phase_env_irrelevant self env1 env2 cm ig s :
  time_limit self = None → seed self = Some s →
  search_phase self env1 cm ig = search_phase self env2 cm ig.
Proof.
  intros Htime Hseed. unfold search_phase. rewrite Hseed.
  rewrite (shuffle_seeded cm s (os_entropy env1) (os_entropy env2)).
  destruct (shuffle_coupling_graph _ _ _ _) as [G nodes].
  rewrite (search_env_irrelevant _ env1 env2); [done|].
  by destruct (default_max_trials_frame self cm ig)
    as (_ & _ & _ & _ & _ & _ & -> & _).
Qed.

(** The loop does not read the property set. *)
Lemma search_set_property self k v env ig G nodes ms :
  ∀ st, search (set_property self k v) env ig G nodes st ms
        = search self env ig G nodes st ms.
Proof.
  induction ms as [|m ms IH]; intros st; simpl; [done|].
  change (trial (set_property self k v) env ig G nodes st m)
    with (trial self env ig G nodes st m).
  destruct (trial self env ig G nodes st m) as [[st' []]|e]; simpl; auto.
Qed.

Lemma default_max_trials_idem self cm ig ig' :
  default_max_trials (default_max_trials self cm ig) cm ig'
  = default_max_trials self cm ig.
Proof.
  unfold default_max_trials.
  destruct (max_trials self) eqn:Hm, (call_limit self) eqn:Hc,
    (time_limit self) eqn:Ht; simpl; rewrite ?Hm, ?Hc, ?Ht; done.
Qed.

Lemma default_max_trials_set_property self k v cm ig :
  default_max_trials (set_property self k v) cm ig
  = set_property (default_max_trials self cm ig) k v.
Proof.
  unfold default_max_trials. simpl.
  by destruct (max_trials self), (call_limit self), (time_limit self).
Qed.

Lemma ensure_avg_error_map_idem self cm cm' :
  ensure_avg_error_map (ensure_avg_error_map self cm) cm'
  = ensure_avg_error_map self cm.
Proof.
  unfold ensure_avg_error_map.
  destruct (avg_error_map self) eqn:Hm; simpl; by rewrite ?Hm.
Qed.

Lemma ensure_avg_error_map_set_property self k v cm :
  ensure_avg_error_map (set_property self k v) cm
  = set_property (ensure_avg_error_map self cm) k v.
Proof.
  unfold ensure_avg_error_map. simpl. by destruct (avg_error_map self).
Qed.

Lemma ensure_default_commute self cm ig :
  ensure_avg_error_map (default_max_trials self cm ig) cm
  = default_max_trials (ensure_avg_error_map self cm) cm ig.
Proof.
  unfold ensure_avg_error_map, default_max_trials.
  destruct (avg_error_map self) eqn:Ha, (max_trials self) eqn:Hm,
    (call_limit self) eqn:Hc, (time_limit self) eqn:Ht;
    simpl; rewrite ?Ha, ?Hm, ?Hc, ?Ht; done.
Qed.

Lemma search_phase_set_property self k v env cm ig :
  search_phase (set_property self k v) env cm ig
  = ('(self', st) ←! search_phase self env cm ig;
     Ok (set_property self' k v, st)).
Proof.
  rewrite !search_phase_unfold, default_max_trials_set_property.
  rewrite search_set_property.
  change (search_graph (set_property self k v) env cm)
    with (search_graph self env cm).
  change (search_nodes (set_property self k v) env cm)
    with (search_nodes self env cm).
  change (candidates (set_property self k v) env cm ig)
    with (candidates self env cm ig).
  by destruct (search _ _ _ _ _ _ _).
Qed.

(** A second search on the state the first one left finds the same. *)
Lemma search_phase_again self env cm ig self' st :
  search_phase self env cm ig = Ok (self', st) →
  search_phase self' env cm ig = Ok (self', st).
Proof.
  rewrite search_phase_unfold.
  destruct (search _ _ _ _ _ _ _) as [st0|e] eqn:Hsearch; [|done].
  simpl. intros [= <- <-].
  rewrite search_phase_unfold, default_max_trials_idem.
  assert (search_graph (default_max_trials self cm ig) env cm
          = search_graph self env cm) as ->.
  { unfold search_graph.
    by destruct (default_max_trials_frame self cm ig)
      as (_ & _ & _ & -> & -> & _). }
  assert (search_nodes (default_max_trials self cm ig) env cm
          = search_nodes self env cm) as ->.
  { unfold search_nodes.
    by destruct (default_max_trials_frame self cm ig)
      as (_ & _ & _ & -> & -> & _). }
  assert (candidates (default_max_trials self cm ig) env cm ig
          = candidates self env cm ig) as ->.
  { unfold candidates, search_graph.
    by destruct (default_max_trials_frame self cm ig)
      as (_ & _ & _ & -> & -> & -> & _). }
  by rewrite Hsearch.
Qed.

Lemma run_from_searched self env dag cm ig st :
  coupling_map self = Some cm →
  build_interaction_graph dag (strict_direction self) = Some ig →
  ensure_avg_error_map self cm = self →
  search_phase self env cm ig = Ok (self, st) →
  run self env dag = publish self dag st.
Proof.
  intros Hcm Hig Hens Hsearch.
  by rewrite (run_enters_search _ _ _ _ _ Hcm Hig), Hens, Hsearch.
Qed.

Lemma run_from_searched_set_property self env dag cm ig st k v :
  (coupling_map self = Some cm
   ∧ build_interaction_graph dag (strict_direction self) = Some ig
   ∧ ensure_avg_error_map self cm = self
   ∧ search_phase self env cm ig = Ok (self, st)) →
  coupling_map (set_property self k v) = Some cm
  ∧ build_interaction_graph dag (strict_direction (set_property self k v))
    = Some ig
  ∧ ensure_avg_error_map (set_property self k v) cm = set_property self k v
  ∧ search_phase (set_property self k v) env cm ig
    = Ok (set_property self k v, st).
Proof.
  intros (Hcm & Hig & Hens & Hsearch). split_and!; try done.
  - by rewrite ensure_avg_error_map_set_property, Hens.
  - by rewrite search_phase_set_property, Hsearch.
Qed.

Lemma set_property_twice self k v :
  set_property (set_property self k v) k v = set_property self k v.
Proof. unfold set_property. simpl. f_equal. apply insert_insert_eq. Qed.

Lemma set_property_pair_twice self k1 v1 k2 v2 :
  set_property (set_property (set_property (set_property self k1 v1) k2 v2)
                  k1 v1) k2 v2
  = set_property (set_property self k1 v1) k2 v2.
Proof.
  unfold set_property. simpl. f_equal. apply map_eq. intros k.
  destruct (decide (k2 = k)) as [->|Hk2]; [by rewrite !lookup_insert_eq|].
  destruct (decide (k1 = k)) as [->|Hk1]; by simplify_map_eq.
Qed.

(** C9 (amended): with an integer seed and no time limit, the outcome of
    [run] (the whole final state, hence the layout and the stop reason,
    or the exception) is the same whatever the clock readings and the
    system entropy of the run, and a second run of the instance on the
    same circuit leaves the state of the first run, with its layout and
    stop reason, unchanged. *)
Theorem run_deterministic self env1 env2 dag (s : Z) :
  time_limit self = None → seed self = Some s →
  run self env1 dag = run self env2 dag
  ∧ ∀ self', run self env1 dag = Ok self' → run self' env2 dag = Ok self'.
Proof.
  intros Htime Hseed.
  assert (run self env1 dag = run self env2 dag) as Hsame.
  { unfold run. destruct (coupling_map self) as [cm|]; [|done].
    destruct (build_interaction_graph _ _) as [ig|]; [|done].
    rewrite (search_phase_env_irrelevant _ env1 env2 cm ig s); [done|..].
    - by destruct (ensure_avg_error_map_frame self cm)
        as (_ & _ & _ & _ & _ & _ & -> & _).
    - by destruct (ensure_avg_error_map_frame self cm)
        as (_ & _ & _ & _ & -> & _). }
  split; [done|]. intros self' Hrun. rewrite Hsame in Hrun.
  destruct (coupling_map self) as [cm|] eqn:Hcm;
    [|unfold run in Hrun; by rewrite Hcm in Hrun].
  set (self1 := ensure_avg_error_map self cm).
  assert (coupling_map self1 = Some cm) as Hcm1.
  { unfold self1. by destruct (ensure_avg_error_map_frame self cm)
      as (_ & -> & _). }
  assert (strict_direction self1 = strict_direction self) as Hstrict1.
  { unfold self1. by destruct (ensure_avg_error_map_frame self cm)
      as (_ & _ & _ & -> & _). }
  assert (ensure_avg_error_map self1 cm = self1) as Hens1
    by apply ensure_avg_error_map_idem.
  destruct (build_interaction_graph dag (strict_direction self))
    as [ig|] eqn:Hig.
  - rewrite (run_enters_search _ _ _ _ _ Hcm Hig) in Hrun. fold self1 in Hrun.
    destruct (search_phase self1 env2 cm ig) as [[self2 st]|e] eqn:Hsearch;
      [|done].
    simpl in Hrun.
    pose proof (search_phase_again _ _ _ _ _ _ Hsearch) as Hagain.
    assert (self2 = default_max_trials self1 cm ig) as Hself2.
    { rewrite search_phase_unfold in Hsearch.
      destruct (search _ _ _ _ _ _ _); [|done]. by injection Hsearch. }
    assert (coupling_map self2 = Some cm
            ∧ build_interaction_graph dag (strict_direction self2) = Some ig
            ∧ ensure_avg_error_map self2 cm = self2
            ∧ search_phase self2 env2 cm ig = Ok (self2, st)) as Hsearched.
    { split_and!; [..|done].
      - rewrite Hself2. by destruct (default_max_trials_frame self1 cm ig)
          as (_ & -> & _).
      - rewrite Hself2. destruct (default_max_trials_frame self1 cm ig)
          as (_ & _ & _ & -> & _). by rewrite Hstrict1.
      - by rewrite Hself2, ensure_default_commute, Hens1. }
    unfold publish in Hrun.
    destruct (chosen_layout st) as [chosen|] eqn:Hchosen.
    + destruct (stop_reason st) as [r|] eqn:Hstop; [|done].
      simpl in Hrun. injection Hrun as <-.
      apply (run_from_searched_set_property _ _ _ _ _ _ "layout"
               (PVLayout (add_registers chosen dag))) in Hsearched.
      apply (run_from_searched_set_property _ _ _ _ _ _
               "VF2Layout_stop_reason" (PVStopReason r)) in Hsearched.
      destruct Hsearched as (H1 & H2 & H3 & H4).
      rewrite (run_from_searched _ _ _ _ _ _ H1 H2 H3 H4).
      unfold publish. rewrite Hchosen, Hstop. simpl.
      by rewrite set_property_pair_twice.
    + injection Hrun as <-.
      apply (run_from_searched_set_property _ _ _ _ _ _
               "VF2Layout_stop_reason" (PVStopReason NO_SOLUTION_FOUND))
        in Hsearched.
      destruct Hsearched as (H1 & H2 & H3 & H4).
      rewrite (run_from_searched _ _ _ _ _ _ H1 H2 H3 H4).
      unfold publish. rewrite Hchosen.
      by rewrite set_property_twice.
  - unfold run in Hrun. rewrite Hcm in Hrun. fold self1 in Hrun.
    rewrite Hstrict1, Hig in Hrun. injection Hrun as <-.
    unfold run. simpl. rewrite Hcm1, ensure_avg_error_map_set_property, Hens1.
    simpl. rewrite Hstrict1, Hig. by rewrite set_property_twice.
Qed.

(** ** The error-map cache *)

Lemma publish_frame self dag st self' :
  publish self dag st = Ok self' →
  avg_error_map self' = avg_error_map self
  ∧ max_trials self' = max_trials self.
Proof.
  unfold publish. destruct (chosen_layout st); [|by intros [= <-]].
  destruct (stop_reason st); [|done]. by intros [= <-].
Qed.

Lemma run_frame self env dag self' :
  run self env dag = Ok self' →
  ∃ cm, coupling_map self = Some cm
    ∧ avg_error_map self' = avg_error_map (ensure_avg_error_map self cm)
    ∧ max_trials self'
      = match build_interaction_graph dag (strict_direction self) with
        | Some ig => max_trials (default_max_trials self cm ig)
        | None => max_trials self
        end.
Proof.
  intros Hrun. destruct (coupling_map self) as [cm|] eqn:Hcm;
    [|unfold run in Hrun; by rewrite Hcm in Hrun].
  exists cm. split; [done|].
  destruct (build_interaction_graph dag (strict_direction self))
    as [ig|] eqn:Hig.
  - rewrite (run_enters_search _ _ _ _ _ Hcm Hig), search_phase_unfold in Hrun.
    destruct (search _ _ _ _ _ _ _) as [st|e]; [|done]. simpl in Hrun.
    apply publish_frame in Hrun as [-> ->].
    destruct (default_max_trials_frame (ensure_avg_error_map self cm) cm ig)
      as (_ & _ & _ & _ & _ & _ & _ & -> & _).
    split; [done|]. unfold default_max_trials.
    destruct (ensure_avg_error_map_frame self cm)
      as (_ & _ & _ & _ & _ & Hc & Ht & Hm & _).
    rewrite Hc, Ht, Hm.
    destruct (max_trials self) eqn:Hmax, (call_limit self), (time_limit self);
      simpl; rewrite ?Hm, ?Hmax; done.
  - unfold run in Hrun. rewrite Hcm in Hrun.
    destruct (ensure_avg_error_map_frame self cm)
      as (_ & _ & _ & Hstrict & _ & _ & _ & Hmax & _).
    rewrite Hstrict, Hig in Hrun. injection Hrun as <-. simpl.
    by rewrite Hmax.
Qed.

Lemma run_returns self env dag cm :
  coupling_map self = Some cm → engine_in_range self env dag = true →
  ∃ self', run self env dag = Ok self'.
Proof.
  intros Hcm Hr.
  destruct (build_interaction_graph dag (strict_direction self))
    as [ig|] eqn:Hig.
  - destruct (run_returns_searching self env dag cm ig Hcm Hig Hr)
      as (self' & Hrun). eauto.
  - unfold run. rewrite Hcm.
    destruct (ensure_avg_error_map_frame self cm)
      as (_ & _ & _ & -> & _). rewrite Hig. eauto.
Qed.

(** C8 (amended): the error map is state of the instance: a run that finds
    none builds it from the target, properties and coupling map the
    instance has at that moment, and every run that finds one keeps it
    as it is, also when the target, the properties or the coupling map
    of the instance were replaced after it was built. *)
Theorem avg_error_map_built_once self env dag cm :
  coupling_map self = Some cm → engine_in_range self env dag = true →
  ∃ self' em,
    run self env dag = Ok self'
    ∧ avg_error_map self' = Some em
    ∧ em = default (build_average_error_map (target self) (properties self) cm)
             (avg_error_map self)
    ∧ ∀ t p c env2 dag2 self'',
        run (set_inputs self' t p c) env2 dag2 = Ok self'' →
        avg_error_map self'' = Some em.
Proof.
  intros Hcm Hr. destruct (run_returns self env dag cm Hcm Hr) as [self' Hrun].
  destruct (run_frame _ _ _ _ Hrun) as (cm' & Hcm' & Hem & _).
  rewrite Hcm in Hcm'. injection Hcm' as <-.
  exists self', (default (build_average_error_map (target self)
                           (properties self) cm) (avg_error_map self)).
  assert (avg_error_map self'
          = Some (default (build_average_error_map (target self)
                             (properties self) cm) (avg_error_map self)))
    as Hem'.
  { rewrite Hem. unfold ensure_avg_error_map.
    by destruct (avg_error_map self) eqn:Hold. }
  split_and!; try done.
  intros t p c env2 dag2 self'' Hrun2.
  destruct (run_frame _ _ _ _ Hrun2) as (cm2 & _ & -> & _).
  unfold ensure_avg_error_map. simpl. by rewrite Hem'.
Qed.

(** ** Subgraph embeddings *)

Lemma pair_eqb_eq (e f : nat * nat) : pair_eqb e f = true ↔ e = f.
Proof.
  destruct e as [a b], f as [c d]. unfold pair_eqb. simpl.
  rewrite andb_true_iff, !Nat.eqb_eq.
  split; [intros [-> ->]|intros [= -> ->]]; done.
Qed.

Lemma existsb_pair_eqb (e : nat * nat) (l : list (nat * nat)) :
  existsb (pair_eqb e) l = true ↔ e ∈ l.
Proof.
  rewrite existsb_exists. split.
  - intros (f & Hin & Heq). apply pair_eqb_eq in Heq as ->.
    by apply list_elem_of_In.
  - intros Hin. exists e. split; [by apply list_elem_of_In|].
    by apply pair_eqb_eq.
Qed.

Lemma has_edge_spec (g : Graph) a b :
  has_edge g a b = true ↔
  (a, b) ∈ edge_list g ∨ (directed g = false ∧ (b, a) ∈ edge_list g).
Proof.
  unfold has_edge.
  rewrite orb_true_iff, andb_true_iff, negb_true_iff, !existsb_pair_eqb.
  done.
Qed.

Lemma node_map_ok_spec (first second : Graph) m :
  node_map_ok first second m = true ↔
  ∀ c i, (c, i) ∈ m → c < num_nodes first ∧ i < num_nodes second.
Proof.
  unfold node_map_ok. rewrite forallb_forall. split.
  - intros H c i Hin. apply list_elem_of_In, H in Hin. simpl in Hin.
    apply andb_prop in Hin as [H1 H2]. by apply Nat.ltb_lt in H1, H2.
  - intros H [c i] Hin. apply list_elem_of_In, H in Hin as [H1 H2]. simpl.
    apply andb_true_iff. by rewrite !Nat.ltb_lt.
Qed.

Lemma covers_spec (l : list nat) n :
  forallb (λ i, existsb (Nat.eqb i) l) (seq 0 n) = true ↔
  ∀ i, i < n → i ∈ l.
Proof.
  rewrite forallb_forall. split.
  - intros H i Hi.
    destruct (proj1 (existsb_exists _ _) (H i ltac:(apply in_seq; lia)))
      as (j & Hj & Heq).
    apply Nat.eqb_eq in Heq as ->. by apply list_elem_of_In.
  - intros H i Hi. apply in_seq in Hi. apply existsb_exists.
    exists i. split; [apply list_elem_of_In, H; lia|apply Nat.eqb_refl].
Qed.

Lemma preserves_edges_spec (first second : Graph) m :
  preserves_edges first second m = true ↔
  ∀ a b, (a, b) ∈ edge_list second →
    ∃ ca cb, (ca, a) ∈ m ∧ (cb, b) ∈ m ∧ has_edge first ca cb = true.
Proof.
  unfold preserves_edges. rewrite forallb_forall. split.
  - intros H a b Hin. apply list_elem_of_In, H in Hin. simpl in Hin.
    apply existsb_exists in Hin as ([ca a'] & Hx & Hin).
    apply andb_prop in Hin as [Ha Hin]. simpl in *.
    apply Nat.eqb_eq in Ha as ->.
    apply existsb_exists in Hin as ([cb b'] & Hy & Hin).
    apply andb_prop in Hin as [Hb Hedge]. simpl in *.
    apply Nat.eqb_eq in Hb as ->.
    exists ca, cb. by rewrite <- !list_elem_of_In in *.
  - intros H [a b] Hin. apply list_elem_of_In, H in Hin
      as (ca & cb & Ha & Hb & Hedge). simpl.
    apply existsb_exists. exists (ca, a).
    split; [by apply list_elem_of_In|]. simpl. rewrite Nat.eqb_refl. simpl.
    apply existsb_exists. exists (cb, b).
    split; [by apply list_elem_of_In|]. simpl. by rewrite Nat.eqb_refl.
Qed.

Lemma is_embedding_spec (first second : Graph) m :
  is_embedding first second m = true ↔ embedding first second m.
Proof.
  unfold is_embedding, embedding, node_indexes.
  rewrite !andb_true_iff, !bool_decide_eq_true, node_map_ok_spec,
    covers_spec, preserves_edges_spec.
  tauto.
Qed.

(** A one-to-one node map fills the dictionary of the layout without
    overwriting. *)
Lemma layout_dict_lookup (rev : gmap nat Qubit) (cm_nodes : list nat) m :
  (∀ i j q, rev !! i = Some q → rev !! j = Some q → i = j) →
  NoDup m.*2 →
  ∀ acc d,
    (∀ c i q, (c, i) ∈ m → rev !! i = Some q → acc !! q = None) →
    layout_dict rev cm_nodes m acc = Ok d →
    (∀ q p, acc !! q = Some p → d !! q = Some p)
    ∧ ∀ c i, (c, i) ∈ m →
        ∃ q p, rev !! i = Some q ∧ cm_nodes !! c = Some p ∧ d !! q = Some p.
Proof.
  intros Hinj. induction m as [|[c i] m IH]; intros Hnd acc d Hfresh; simpl.
  - intros [= <-]. split; [done|]. intros c i Hin. by apply elem_of_nil in Hin.
  - unfold getitem, getindex.
    destruct (rev !! i) as [q|] eqn:Hq; [|done]. simpl.
    destruct (cm_nodes !! c) as [p|] eqn:Hp; [|done]. simpl.
    intros Hd. simpl in Hnd. apply NoDup_cons in Hnd as [Hi Hnd].
    destruct (IH Hnd (<[q:=p]> acc) d) as [Hkeep Hall]; [|done|].
    { intros c' i' q' Hin Hq'.
      destruct (decide (q = q')) as [<-|Hne].
      - assert (i' = i) as -> by by eapply Hinj.
        exfalso. apply Hi. apply list_elem_of_fmap. by exists (c', i).
      - rewrite lookup_insert_ne by done. eapply Hfresh; [by right|done]. }
    split.
    + intros q' p' Hacc. apply Hkeep.
      destruct (decide (q = q')) as [<-|Hne].
      * rewrite (Hfresh c i q) in Hacc; [done|by left|done].
      * by rewrite lookup_insert_ne.
    + intros c' i' Hin. apply elem_of_cons in Hin as [[= -> ->]|Hin].
      * exists q, p. split_and!; [done..|]. apply Hkeep.
        by rewrite lookup_insert_eq.
      * by apply Hall.
Qed.

Lemma ig_wf_injective ig :
  ig_wf ig →
  ∀ i j q, reverse_im_graph_node_map ig !! i = Some q →
           reverse_im_graph_node_map ig !! j = Some q → i = j.
Proof.
  intros [Hinv _] i j q Hi Hj. apply Hinv in Hi, Hj. congruence.
Qed.

(** ** Undoing the shuffle *)

Lemma index_of_lookup (perm : list nat) x y :
  NoDup perm → perm !! x = Some y → index_of y perm = x.
Proof.
  intros Hnd Hx. unfold index_of.
  destruct (list_find (λ z, z = y) perm) as [[i z]|] eqn:Hfind.
  - apply list_find_Some in Hfind as (Hi & -> & _). simpl.
    by eapply NoDup_lookup.
  - apply list_find_None in Hfind. rewrite Forall_forall in Hfind.
    exfalso. eapply Hfind; [|done]. by eapply list_elem_of_lookup_2.
Qed.

Section Relabelling.
Context (g : Graph) (perm : list nat).
Hypothesis Hperm : perm ≡ₚ seq 0 (num_nodes g).
Hypothesis Hedges :
  ∀ x y, (x, y) ∈ edge_list g → x < num_nodes g ∧ y < num_nodes g.

Lemma perm_length : length perm = num_nodes g.
Proof. by rewrite Hperm, length_seq. Qed.

Lemma perm_NoDup : NoDup perm.
Proof. rewrite Hperm. apply NoDup_seq. Qed.

Lemma perm_lookup x :
  x < num_nodes g →
  ∃ y, perm !! x = Some y ∧ y < num_nodes g ∧ relabel perm x = y
       ∧ inverse_table perm !! y = Some x.
Proof.
  intros Hx.
  destruct (lookup_lt_is_Some_2 perm x) as [y Hy];
    [by rewrite perm_length|].
  assert (y < num_nodes g) as Hlt.
  { apply list_elem_of_lookup_2 in Hy. rewrite Hperm in Hy.
    apply elem_of_seq in Hy. lia. }
  exists y. split_and!; [done..| |].
  - unfold relabel. by rewrite Hy.
  - unfold inverse_table. rewrite list_lookup_fmap, perm_length.
    rewrite lookup_seq_lt by done. simpl.
    by rewrite (index_of_lookup perm x y perm_NoDup Hy).
Qed.

Lemma relabel_inj x y :
  x < num_nodes g → y < num_nodes g →
  relabel perm x = relabel perm y → x = y.
Proof.
  intros Hx Hy Heq.
  destruct (perm_lookup x Hx) as (a & Ha & _ & Hra & _).
  destruct (perm_lookup y Hy) as (b & Hb & _ & Hrb & _).
  rewrite Hra, Hrb in Heq. subst b.
  by eapply (NoDup_lookup perm x y a perm_NoDup).
Qed.

Lemma relabel_graph_has_edge x y :
  has_edge g x y = true →
  has_edge (relabel_graph perm g) (relabel perm x) (relabel perm y) = true.
Proof.
  rewrite !has_edge_spec. simpl.
  intros [Hin|[Hdir Hin]]; [left|right; split; [done|]];
    apply list_elem_of_fmap; eexists; (split; [|exact Hin]); done.
Qed.

(** An edge of the relabelled graph is an edge of the original one,
    read through the inverse table. *)
Lemma relabel_graph_edge_back ca cb :
  has_edge (relabel_graph perm g) ca cb = true →
  ∃ x y, inverse_table perm !! ca = Some x
         ∧ inverse_table perm !! cb = Some y
         ∧ has_edge g x y = true.
Proof.
  rewrite has_edge_spec. simpl.
  intros [Hin|[Hdir Hin]];
    apply list_elem_of_fmap in Hin as ([x y] & Heq & Hin);
    simpl in Heq; injection Heq as -> ->;
    destruct (Hedges x y Hin) as [Hx Hy];
    destruct (perm_lookup x Hx) as (a & _ & _ & -> & Ha);
    destruct (perm_lookup y Hy) as (b & _ & _ & -> & Hb).
  - exists x, y. split_and!; [done..|]. apply has_edge_spec. by left.
  - exists y, x. split_and!; [done..|]. apply has_edge_spec. by right.
Qed.

Lemma relabel_embedding (second : Graph) m :
  embedding g second m →
  embedding (relabel_graph perm g) second
    ((λ ci : nat * nat, (relabel perm ci.1, ci.2)) <$> m).
Proof.
  intros (Hrange & Hnd1 & Hnd2 & Hcov & Hpres).
  assert (((λ ci : nat * nat, (relabel perm ci.1, ci.2)) <$> m).*2
          = m.*2) as Hsnd.
  { rewrite <- list_fmap_compose. by apply list_fmap_ext. }
  assert (((λ ci : nat * nat, (relabel perm ci.1, ci.2)) <$> m).*1
          = relabel perm <$> m.*1) as Hfst.
  { rewrite <- !list_fmap_compose. by apply list_fmap_ext. }
  split_and!.
  - intros c i Hin. apply list_elem_of_fmap in Hin as ([c0 i0] & Heq & Hin).
    simpl in Heq. injection Heq as -> ->.
    destruct (Hrange c0 i0 Hin) as [Hc Hi].
    destruct (perm_lookup c0 Hc) as (y & _ & Hy & -> & _).
    simpl. by rewrite perm_length.
  - rewrite Hfst. apply NoDup_fmap_2_strong; [|done].
    intros x y Hx Hy. apply relabel_inj.
    + apply list_elem_of_fmap in Hx as ([c i] & -> & Hin).
      by apply (Hrange c i).
    + apply list_elem_of_fmap in Hy as ([c i] & -> & Hin).
      by apply (Hrange c i).
  - by rewrite Hsnd.
  - by rewrite Hsnd.
  - intros a b Hab. destruct (Hpres a b Hab) as (ca & cb & Ha & Hb & Hedge).
    exists (relabel perm ca), (relabel perm cb). split_and!.
    + apply list_elem_of_fmap. by exists (ca, a).
    + apply list_elem_of_fmap. by exists (cb, b).
    + by apply relabel_graph_has_edge.
Qed.
End Relabelling.

(** ** Layouts of embeddable circuits *)

Lemma coupling_view_edges cm strict x y :
  coupling_wf cm = true →
  (x, y) ∈ edge_list (coupling_view cm strict) →
  x < num_nodes (coupling_view cm strict)
  ∧ y < num_nodes (coupling_view cm strict).
Proof.
  intros Hwf Hin. unfold coupling_wf in Hwf. rewrite forallb_forall in Hwf.
  assert ((x, y) ∈ edge_list (graph cm)) as Hin' by by destruct strict.
  apply list_elem_of_In, Hwf in Hin'. simpl in Hin'.
  apply andb_prop in Hin' as [Hx Hy]. apply Nat.ltb_lt in Hx, Hy.
  by destruct strict.
Qed.

Lemma search_graph_embedding self env cm (second : Graph) m :
  coupling_wf cm = true → shuffle_permutes self env cm →
  embedding (coupling_view cm (strict_direction self)) second m →
  ∃ m', embedding (search_graph self env cm) second m'.
Proof.
  intros Hwf Hperm Hemb.
  unfold search_graph, shuffle_coupling_graph. case_bool_decide; simpl.
  - by exists m.
  - eexists. apply relabel_embedding; [exact Hperm|done].
Qed.

Lemma search_graph_edge_back self env cm ca cb :
  coupling_wf cm = true → shuffle_permutes self env cm →
  has_edge (search_graph self env cm) ca cb = true →
  ∃ x y, search_nodes self env cm !! ca = Some x
         ∧ search_nodes self env cm !! cb = Some y
         ∧ has_edge (coupling_view cm (strict_direction self)) x y = true.
Proof.
  intros Hwf Hperm.
  unfold search_graph, search_nodes, shuffle_coupling_graph.
  case_bool_decide; simpl.
  - intros Hedge. exists ca, cb.
    assert (ca < num_nodes (coupling_view cm (strict_direction self))
            ∧ cb < num_nodes (coupling_view cm (strict_direction self)))
      as [Ha Hb].
    { apply has_edge_spec in Hedge as [Hin|[_ Hin]];
        apply (coupling_view_edges _ _ _ _ Hwf) in Hin; tauto. }
    unfold node_indexes. by rewrite !lookup_seq_lt.
  - apply relabel_graph_edge_back; [exact Hperm|].
    intros x y. by apply coupling_view_edges.
Qed.

(** The layout of an embedding puts the two qubits of every edge of the
    interaction graph on coupled physical qubits. *)
Lemma embedding_layout_edges self env cm ig m l :
  coupling_wf cm = true → shuffle_permutes self env cm → ig_wf ig →
  embedding (search_graph self env cm) (im_graph ig) m →
  candidate_layout self env cm ig m = Some l →
  ∀ a b, (a, b) ∈ edge_list (im_graph ig) →
    ∃ qa qb pa pb,
      reverse_im_graph_node_map ig !! a = Some qa
      ∧ reverse_im_graph_node_map ig !! b = Some qb
      ∧ v2p l !! qa = Some pa ∧ v2p l !! qb = Some pb
      ∧ has_edge (coupling_view cm (strict_direction self)) pa pb = true.
Proof.
  intros Hwf Hperm Higwf (_ & _ & Hnd & _ & Hpres) Hl a b Hab.
  unfold candidate_layout, layout_of in Hl.
  destruct (layout_dict _ _ m ∅) as [d|e] eqn:Hd; [|done].
  injection Hl as <-.
  destruct (layout_dict_lookup _ (search_nodes self env cm) m
              (ig_wf_injective ig Higwf) Hnd ∅ d)
    as [_ Hall]; [by intros; apply lookup_empty|done|].
  destruct (Hpres a b Hab) as (ca & cb & Ha & Hb & Hedge).
  destruct (Hall ca a Ha) as (qa & pa & Hqa & Hpa & Hda).
  destruct (Hall cb b Hb) as (qb & pb & Hqb & Hpb & Hdb).
  destruct (search_graph_edge_back self env cm ca cb Hwf Hperm Hedge)
    as (x & y & Hx & Hy & Hxy).
  rewrite Hpa in Hx. rewrite Hpb in Hy. injection Hx as ->. injection Hy as ->.
  exists qa, qb, x, y. by split_and!.
Qed.

(** The retained layout is the layout of one of the candidates. *)
Lemma search_phase_chosen_candidate self env cm ig :
  ig_wf ig → search_in_range self env cm ig = true →
  candidates self env cm ig ≠ [] →
  ∃ st m l,
    search_phase self env cm ig = Ok (default_max_trials self cm ig, st)
    ∧ m ∈ candidates self env cm ig
    ∧ candidate_layout self env cm ig m = Some l
    ∧ chosen_layout st = Some l
    ∧ stop_reason st = Some SOLUTION_FOUND.
Proof.
  intros Hwf Hr Hms.
  destruct (decide (num_nodes (search_graph self env cm)
                    = num_nodes (im_graph ig))) as [Heq|Hne].
  - destruct (candidates self env cm ig) as [|m rest] eqn:Hcands; [done|].
    pose proof (search_in_range_layouts _ _ _ _ Hwf Hr) as Hall.
    rewrite Hcands in Hall. apply Forall_cons in Hall as [[l Hl] _].
    exists (shortcut_state l), m, l.
    rewrite (search_phase_equal _ _ _ _ _ _ Heq Hcands l Hl).
    split_and!; try done. by left.
  - destruct (search_phase_earliest_least _ _ _ _ Hwf Hr Hne Hms)
      as (st & i & m & l & Hsearch & _ & _ & Hm & Hl & Hchosen & _).
    destruct (search_phase_outcome _ _ _ _ Hwf Hr)
      as (st' & Hsearch' & _ & Hcons).
    rewrite Hsearch in Hsearch'. injection Hsearch' as <-.
    exists st, m, l. split_and!; try done.
    + by eapply list_elem_of_lookup_2.
    + by apply Hcons.
Qed.

(** C1: when the interaction graph of the circuit embeds into the
    coupling graph (as a subgraph, direction respected under
    [strict_direction]), the engine answering the call of the run with
    embeddings only and with at least one whenever one exists, [run]
    returns with stop reason [SOLUTION_FOUND] and publishes a layout
    under which the two qubits of every edge of the interaction graph
    sit on physical qubits joined by an edge of the coupling graph, the
    physical indices being those of the device, read back through the
    table that undoes the seeded shuffle. *)
Theorem embeddable_circuit_gets_layout self env dag cm ig :
  coupling_map self = Some cm →
  build_interaction_graph dag (strict_direction self) = Some ig →
  coupling_wf cm = true →
  shuffle_permutes self env cm →
  (∀ m, m ∈ candidates self env cm ig →
        is_embedding (search_graph self env cm) (im_graph ig) m = true) →
  ((∃ m, is_embedding (search_graph self env cm) (im_graph ig) m = true) →
   candidates self env cm ig ≠ []) →
  (∃ m, is_embedding (coupling_view cm (strict_direction self))
          (im_graph ig) m = true) →
  ∃ self' l,
    run self env dag = Ok self'
    ∧ property_set self' !! "VF2Layout_stop_reason"%string
      = Some (PVStopReason SOLUTION_FOUND)
    ∧ property_set self' !! "layout"%string = Some (PVLayout l)
    ∧ ∀ a b, (a, b) ∈ edge_list (im_graph ig) →
        ∃ qa qb pa pb,
          reverse_im_graph_node_map ig !! a = Some qa
          ∧ reverse_im_graph_node_map ig !! b = Some qb
          ∧ v2p l !! qa = Some pa ∧ v2p l !! qb = Some pb
          ∧ has_edge (coupling_view cm (strict_direction self)) pa pb = true.
Proof.
  intros Hcm Hig Hwf Hperm Hsound Hcomplete [m0 Hm0].
  pose proof (build_interaction_graph_wf _ _ _ Hig) as Higwf.
  assert (candidates self env cm ig ≠ []) as Hms.
  { apply Hcomplete. apply is_embedding_spec in Hm0.
    destruct (search_graph_embedding self env cm _ m0 Hwf Hperm Hm0)
      as [m' Hm']. exists m'. by apply is_embedding_spec. }
  assert (search_in_range self env cm ig = true) as Hr.
  { unfold search_in_range. apply forallb_forall. intros m Hm.
    apply list_elem_of_In, Hsound in Hm. unfold is_embedding in Hm.
    rewrite !andb_true_iff in Hm. tauto. }
  set (self1 := ensure_avg_error_map self cm).
  destruct (search_phase_chosen_candidate self1 env cm ig Higwf)
    as (st & m & l & Hsearch & Hm & Hl & Hchosen & Hstop).
  { subst self1. by rewrite search_in_range_ensure. }
  { subst self1. by rewrite candidates_ensure. }
  subst self1. rewrite candidates_ensure in Hm.
  rewrite candidate_layout_ensure in Hl.
  exists (set_property
            (set_property
               (default_max_trials (ensure_avg_error_map self cm) cm ig)
               "layout" (PVLayout (add_registers l dag)))
            "VF2Layout_stop_reason" (PVStopReason SOLUTION_FOUND)),
    (add_registers l dag).
  split_and!.
  - rewrite (run_enters_search _ _ _ _ _ Hcm Hig), Hsearch. simpl.
    unfold publish. by rewrite Hchosen, Hstop.
  - simpl. by rewrite lookup_insert_eq.
  - simpl. rewrite lookup_insert_ne by done. by rewrite lookup_insert_eq.
  - intros a b Hab.
    apply Hsound, is_embedding_spec in Hm.
    destruct (embedding_layout_edges self env cm ig m l Hwf Hperm Higwf
                Hm Hl a b Hab) as (qa & qb & pa & pb & Hqa & Hqb & Hpa & Hpb & He).
    exists qa, qb, pa, pb. split_and!; try done.
    + eapply lookup_weaken; [done|apply add_registers_extends].
    + eapply lookup_weaken; [done|apply add_registers_extends].
Qed.

(** ** What [run] raises, and what it leaves alone *)

Lemma layout_dict_raises (rev : gmap nat Qubit) (cm_nodes : list nat) m acc e :
  layout_dict rev cm_nodes m acc = Raise e → e = KeyError ∨ e = IndexError.
Proof.
  revert acc. induction m as [|[c i] m IH]; intros acc; simpl; [done|].
  unfold getitem, getindex.
  destruct (rev !! i); simpl; [|intros [= <-]; by left].
  destruct (cm_nodes !! c); simpl; [|intros [= <-]; by right].
  apply IH.
Qed.

Lemma trial_safe self env ig G nodes st m :
  scored_if_chosen st →
  match trial self env ig G nodes st m with
  | Ok (st', stop) =>
      is_Some (chosen_layout st')
      ∧ stop_reason st' = Some SOLUTION_FOUND
      ∧ trials st' = S (trials st)
      ∧ (stop = false → scored_if_chosen st')
  | Raise e => e = KeyError ∨ e = IndexError
  end.
Proof.
  intros Hst. unfold trial.
  destruct (layout_dict _ nodes m ∅) as [d|e] eqn:Hd; simpl;
    [|by eapply layout_dict_raises].
  destruct (num_nodes G =? num_nodes (im_graph ig)); simpl.
  { split_and!; eauto. done. }
  unfold scored_if_chosen in *.
  destruct (chosen_layout st) as [c|] eqn:Hc; simpl.
  - destruct (chosen_layout_score st) as [b|] eqn:Hb; simpl;
      [|by destruct Hst; eauto].
    destruct (Qltb _ b); simpl;
      destruct (match max_trials self with
                | Some m0 => _ | None => false end); simpl;
      split_and!; eauto.
  - destruct (match max_trials self with
              | Some m0 => _ | None => false end); simpl;
      split_and!; eauto.
Qed.

Lemma search_safe self env ig G nodes ms :
  ∀ st, scored_if_chosen st → found_if_chosen st →
  match search self env ig G nodes st ms with
  | Ok st' => found_if_chosen st'
  | Raise e => e = KeyError ∨ e = IndexError
  end.
Proof.
  induction ms as [|m ms IH]; intros st Hscored Hfound; simpl; [done|].
  pose proof (trial_safe self env ig G nodes st m Hscored) as Htrial.
  destruct (trial self env ig G nodes st m) as [[st' stop]|e]; simpl; [|done].
  destruct Htrial as (_ & Hstop & _ & Hnext).
  destruct stop; [by intros _|].
  apply IH; [by apply Hnext|by intros _].
Qed.

Lemma search_phase_safe self env cm ig :
  match search_phase self env cm ig with
  | Ok (self', st) =>
      self' = default_max_trials self cm ig ∧ found_if_chosen st
  | Raise e => e = KeyError ∨ e = IndexError
  end.
Proof.
  rewrite search_phase_unfold.
  pose proof (search_safe (default_max_trials self cm ig) env ig
                (search_graph self env cm) (search_nodes self env cm)
                (candidates self env cm ig) initial_search_state) as Hsafe.
  destruct (search _ _ _ _ _ _ _) as [st|e]; simpl.
  - split; [done|]. apply Hsafe; by intros [? ?].
  - apply Hsafe; by intros [? ?].
Qed.

Lemma publish_found self dag st :
  found_if_chosen st →
  publish self dag st
  = Ok match chosen_layout st with
       | None =>
           set_property self "VF2Layout_stop_reason"
             (PVStopReason NO_SOLUTION_FOUND)
       | Some chosen =>
           set_property
             (set_property self "layout" (PVLayout (add_registers chosen dag)))
             "VF2Layout_stop_reason" (PVStopReason SOLUTION_FOUND)
       end.
Proof.
  intros Hfound. unfold publish, found_if_chosen in *.
  destruct (chosen_layout st) as [chosen|]; [|done].
  rewrite Hfound by eauto. done.
Qed.

Lemma run_raise_inv self env dag e :
  run self env dag = Raise e →
  (coupling_map self = None
   ∧ e = TranspilerError "coupling_map or target must be specified.")
  ∨ (is_Some (coupling_map self) ∧ (e = KeyError ∨ e = IndexError)).
Proof.
  intros Hrun. destruct (coupling_map self) as [cm|] eqn:Hcm.
  - right. split; [eauto|].
    destruct (build_interaction_graph dag (strict_direction self))
      as [ig|] eqn:Hig.
    + rewrite (run_enters_search _ _ _ _ _ Hcm Hig) in Hrun.
      pose proof (search_phase_safe (ensure_avg_error_map self cm) env cm ig)
        as Hsafe.
      destruct (search_phase _ env cm ig) as [[self1 st]|e']; simpl in Hrun.
      * destruct Hsafe as [_ Hfound].
        by rewrite (publish_found _ _ _ Hfound) in Hrun.
      * by injection Hrun as <-.
    + unfold run in Hrun. rewrite Hcm in Hrun.
      destruct (ensure_avg_error_map_frame self cm) as (_ & _ & _ & Hs & _).
      by rewrite Hs, Hig in Hrun.
  - left. unfold run in Hrun. rewrite Hcm in Hrun. by injection Hrun as <-.
Qed.

(** X1: [run] raises [TranspilerError] exactly when the instance has no
    coupling map: without one every run raises it, whatever the circuit,
    and with one no run does.  Every other exception a run can end in is
    the [KeyError] or [IndexError] of building the layout of a candidate
    whose indices the two node tables do not know: the comparison of
    scores never meets an absent score and the stop reason is never read
    unbound. *)
Theorem run_raises_only self env dag :
  (coupling_map self = None ↔
   ∃ msg, run self env dag = Raise (TranspilerError msg))
  ∧ (coupling_map self = None →
     run self env dag
     = Raise (TranspilerError "coupling_map or target must be specified."))
  ∧ ∀ e, run self env dag = Raise e → is_Some (coupling_map self) →
      e = KeyError ∨ e = IndexError.
Proof.
  assert (coupling_map self = None →
          run self env dag
          = Raise (TranspilerError "coupling_map or target must be specified."))
    as Hnone.
  { intros Hcm. unfold run. by rewrite Hcm. }
  split_and!; [split|done|].
  - intros Hcm. eexists. by apply Hnone.
  - intros [msg Hrun].
    destruct (run_raise_inv _ _ _ _ Hrun) as [[Hcm _]|[_ [?|?]]]; done.
  - intros e Hrun [cm Hcm].
    destruct (run_raise_inv _ _ _ _ Hrun) as [[Hcm' _]|[_ He]]; [|done].
    by rewrite Hcm in Hcm'.
Qed.

(** The state a returning run ends in, written out. *)
Lemma run_ok_inv self env dag self' :
  run self env dag = Ok self' →
  ∃ cm, coupling_map self = Some cm
    ∧ match build_interaction_graph dag (strict_direction self) with
      | None =>
          self' = set_property (ensure_avg_error_map self cm)
                    "VF2Layout_stop_reason" (PVStopReason MORE_THAN_2Q)
      | Some ig =>
          ∃ st,
            search_phase (ensure_avg_error_map self cm) env cm ig
            = Ok (default_max_trials (ensure_avg_error_map self cm) cm ig, st)
            ∧ self'
              = match chosen_layout st with
                | None =>
                    set_property
                      (default_max_trials (ensure_avg_error_map self cm) cm ig)
                      "VF2Layout_stop_reason" (PVStopReason NO_SOLUTION_FOUND)
                | Some chosen =>
                    set_property
                      (set_property
                         (default_max_trials (ensure_avg_error_map self cm)
                            cm ig)
                         "layout" (PVLayout (add_registers chosen dag)))
                      "VF2Layout_stop_reason" (PVStopReason SOLUTION_FOUND)
                end
      end.
Proof.
  intros Hrun. destruct (coupling_map self) as [cm|] eqn:Hcm;
    [|unfold run in Hrun; by rewrite Hcm in Hrun].
  exists cm. split; [done|].
  destruct (build_interaction_graph dag (strict_direction self))
    as [ig|] eqn:Hig.
  - rewrite (run_enters_search _ _ _ _ _ Hcm Hig) in Hrun.
    pose proof (search_phase_safe (ensure_avg_error_map self cm) env cm ig)
      as Hsafe.
    destruct (search_phase _ env cm ig) as [[self1 st]|e']; simpl in Hrun;
      [|done].
    destruct Hsafe as [-> Hfound]. exists st. split; [done|].
    rewrite (publish_found _ _ _ Hfound) in Hrun. by injection Hrun as <-.
  - unfold run in Hrun. rewrite Hcm in Hrun.
    destruct (ensure_avg_error_map_frame self cm) as (_ & _ & _ & Hs & _).
    rewrite Hs, Hig in Hrun. by injection Hrun as <-.
Qed.

(** X2: a returning [run] leaves the configuration of the instance alone:
    target, coupling map, properties, [strict_direction], seed,
    [call_limit] and [time_limit] are those it started with, and in the
    property set only the keys ["layout"] and ["VF2Layout_stop_reason"] can
    differ from before. *)
Theorem run_frame_configuration self env dag self' :
  run self env dag = Ok self' →
  target self' = target self
  ∧ coupling_map self' = coupling_map self
  ∧ properties self' = properties self
  ∧ strict_direction self' = strict_direction self
  ∧ seed self' = seed self
  ∧ call_limit self' = call_limit self
  ∧ time_limit self' = time_limit self
  ∧ ∀ k : string, k ≠ "layout"%string → k ≠ "VF2Layout_stop_reason"%string →
      property_set self' !! k = property_set self !! k.
Proof.
  intros Hrun. destruct (run_ok_inv _ _ _ _ Hrun) as (cm & Hcm & Hinv).
  destruct (ensure_avg_error_map_frame self cm)
    as (E1 & E2 & E3 & E4 & E5 & E6 & E7 & _ & E9).
  destruct (build_interaction_graph dag (strict_direction self)) as [ig|].
  - destruct Hinv as (st & _ & ->).
    destruct (default_max_trials_frame (ensure_avg_error_map self cm) cm ig)
      as (D1 & D2 & D3 & D4 & D5 & D6 & D7 & _ & D9).
    destruct (chosen_layout st); simpl;
      rewrite D1, D2, D3, D4, D5, D6, D7, D9, E1, E2, E3, E4, E5, E6, E7, E9;
      split_and!; try done; intros k Hl Hs;
      by rewrite ?lookup_insert_ne by done.
  - subst self'. simpl. rewrite E1, E2, E3, E4, E5, E6, E7, E9.
    split_and!; try done. intros k Hl Hs. by rewrite lookup_insert_ne.
Qed.

(** X3: every returning [run] leaves a stop reason in the property set.
    It is [MORE_THAN_2Q] exactly when the interaction graph builder
    aborted; with [SOLUTION_FOUND] the layout key holds a layout; with any
    other stop reason the layout key is what it was before the run, so a
    layout published by an earlier run stays in place. *)
Theorem stop_reason_always_set self env dag self' :
  run self env dag = Ok self' →
  ∃ r,
    property_set self' !! "VF2Layout_stop_reason"%string
    = Some (PVStopReason r)
    ∧ (r = MORE_THAN_2Q ↔
       build_interaction_graph dag (strict_direction self) = None)
    ∧ (r = SOLUTION_FOUND →
       ∃ l, property_set self' !! "layout"%string = Some (PVLayout l))
    ∧ (r ≠ SOLUTION_FOUND →
       property_set self' !! "layout"%string
       = property_set self !! "layout"%string).
Proof.
  intros Hrun. destruct (run_ok_inv _ _ _ _ Hrun) as (cm & Hcm & Hinv).
  destruct (ensure_avg_error_map_frame self cm)
    as (_ & _ & _ & _ & _ & _ & _ & _ & E9).
  destruct (build_interaction_graph dag (strict_direction self)) as [ig|].
  - destruct Hinv as (st & _ & ->).
    destruct (default_max_trials_frame (ensure_avg_error_map self cm) cm ig)
      as (_ & _ & _ & _ & _ & _ & _ & _ & D9).
    destruct (chosen_layout st) as [chosen|]; simpl.
    + exists SOLUTION_FOUND. rewrite lookup_insert_eq.
      split_and!; try done.
      intros _. rewrite lookup_insert_ne by done. rewrite lookup_insert_eq.
      eauto.
    + exists NO_SOLUTION_FOUND. rewrite lookup_insert_eq.
      split_and!; try done.
      intros _. rewrite lookup_insert_ne by done. by rewrite D9, E9.
  - subst self'. simpl. exists MORE_THAN_2Q. rewrite lookup_insert_eq.
    split_and!; try done.
    intros _. rewrite lookup_insert_ne by done. by rewrite E9.
Qed.

(** ** How many trials are made *)

Lemma default_max_trials_configured self cm ig :
  (is_Some (max_trials self) ∨ is_Some (call_limit self)
   ∨ is_Some (time_limit self)) →
  default_max_trials self cm ig = self.
Proof.
  unfold default_max_trials.
  intros [[? H]|[[? H]|[? H]]]; rewrite H; try done;
    destruct (max_trials self); try done; by destruct (call_limit self).
Qed.

Lemma trials_run_max self env (m : Z) t n :
  max_trials self = Some m → (0 < m)%Z → (Z.of_nat t < m)%Z →
  (Z.of_nat (t + trials_run self env t n) ≤ m)%Z.
Proof.
  intros Hmax Hpos. revert t.
  induction n as [|n IH]; intros t Ht; cbn [trials_run]; [lia|].
  destruct (stops_after self env (S t)) eqn:Hstop; [lia|].
  unfold stops_after in Hstop. rewrite Hmax in Hstop.
  apply orb_false_elim in Hstop as [Hstop _].
  destruct (0 <? m)%Z eqn:H0; [|apply Z.ltb_ge in H0; lia].
  simpl in Hstop. apply Z.leb_gt in Hstop.
  specialize (IH (S t) Hstop). lia.
Qed.

Lemma trials_run_time self env (limit : Q) (k : nat) t n :
  time_limit self = Some limit →
  (limit <= clock env k - clock env 0)%Q → t < k →
  t + trials_run self env t n ≤ k.
Proof.
  intros Htime Hk. revert t.
  induction n as [|n IH]; intros t Ht; cbn [trials_run]; [lia|].
  destruct (stops_after self env (S t)) eqn:Hstop; [lia|].
  destruct (decide (S t = k)) as [<-|Hne].
  - unfold stops_after in Hstop. rewrite Htime in Hstop.
    apply orb_false_elim in Hstop as [_ Hstop].
    apply Qle_bool_iff in Hk. congruence.
  - specialize (IH (S t) ltac:(lia)). lia.
Qed.

Lemma trials_run_unlimited self env t n :
  time_limit self = None →
  match max_trials self with
  | Some m => (m ≤ 0)%Z
  | None => True
  end →
  trials_run self env t n = n.
Proof.
  intros Htime Hmax. revert t.
  induction n as [|n IH]; intros t; cbn [trials_run]; [done|].
  assert (stops_after self env (S t) = false) as ->.
  { unfold stops_after. rewrite Htime, orb_false_r.
    destruct (max_trials self) as [m|]; [|done].
    destruct (0 <? m)%Z eqn:H0; [apply Z.ltb_lt in H0; lia|done]. }
  by rewrite IH.
Qed.

(** The trial count, in both size regimes. *)
Lemma search_phase_trials self env cm ig :
  ig_wf ig → search_in_range self env cm ig = true →
  ∃ st,
    search_phase self env cm ig = Ok (default_max_trials self cm ig, st)
    ∧ (trials st ≤ 1
       ∨ trials st
         = trials_run (default_max_trials self cm ig) env 0
             (length (candidates self env cm ig)))
    ∧ trials st ≤ length (candidates self env cm ig).
Proof.
  intros Hwf Hr.
  destruct (decide (num_nodes (search_graph self env cm)
                    = num_nodes (im_graph ig))) as [Heq|Hne].
  - destruct (candidates self env cm ig) as [|m rest] eqn:Hms.
    + exists initial_search_state. rewrite search_phase_unfold, Hms.
      simpl. split_and!; [done|left; lia|lia].
    + pose proof (search_in_range_layouts _ _ _ _ Hwf Hr) as Hall.
      rewrite Hms in Hall. apply Forall_cons in Hall as [[l Hl] _].
      exists (shortcut_state l).
      rewrite (search_phase_equal _ _ _ _ _ _ Heq Hms l Hl). simpl.
      split_and!; [done|left; lia|lia].
  - destruct (search_phase_unequal _ _ _ _ Hwf Hr Hne)
      as (st & ls & Hsearch & _ & Ht & _).
    exists st. split_and!; [done|by right|].
    rewrite Ht. apply trials_run_le.
Qed.

(** X4: under a positive [max_trials] the loop returns after at most that
    many trials, whatever the time limit, the clock and the number of
    candidates the engine has in store. *)
Theorem max_trials_bounds_trials self env dag cm ig (m : Z) :
  build_interaction_graph dag (strict_direction self) = Some ig →
  search_in_range self env cm ig = true →
  max_trials self = Some m → (0 < m)%Z →
  ∃ st,
    search_phase self env cm ig = Ok (self, st)
    ∧ (Z.of_nat (trials st) ≤ m)%Z
    ∧ trials st ≤ length (candidates self env cm ig).
Proof.
  intros Hig Hr Hmax Hpos.
  pose proof (build_interaction_graph_wf _ _ _ Hig) as Hwf.
  destruct (search_phase_trials self env cm ig Hwf Hr)
    as (st & Hsearch & Ht & Hlen).
  rewrite default_max_trials_configured in Hsearch, Ht
    by (left; rewrite Hmax; eauto).
  exists st. split_and!; [done| |done].
  destruct Ht as [Ht| ->]; [lia|].
  apply (trials_run_max self env m 0); [done|done|lia].
Qed.

(** X5: under a time limit, once the clock read at the end of trial [k]
    shows the limit reached, the loop has ended: it makes at most [k]
    trials, however many candidates are left. *)
Theorem time_limit_bounds_trials self env dag cm ig (limit : Q) (k : nat) :
  build_interaction_graph dag (strict_direction self) = Some ig →
  search_in_range self env cm ig = true →
  time_limit self = Some limit → 0 < k →
  (limit <= clock env k - clock env 0)%Q →
  ∃ st, search_phase self env cm ig = Ok (self, st) ∧ trials st ≤ k.
Proof.
  intros Hig Hr Htime Hk Hlimit.
  pose proof (build_interaction_graph_wf _ _ _ Hig) as Hwf.
  destruct (search_phase_trials self env cm ig Hwf Hr)
    as (st & Hsearch & Ht & _).
  rewrite default_max_trials_configured in Hsearch, Ht
    by (right; right; rewrite Htime; eauto).
  exists st. split; [done|].
  destruct Ht as [Ht| ->]; [lia|].
  apply (trials_run_time self env limit k 0); done.
Qed.

(** X6: without a time limit, a [max_trials] of zero or less, or a
    [max_trials] left unset beside a [call_limit], puts no limit on the
    trials: with graphs of different node counts every candidate of the
    engine is tried, the instance keeps its [max_trials], and the chosen
    layout scores at most what any candidate scores. *)
Theorem unlimited_search_tries_all self env dag cm ig :
  build_interaction_graph dag (strict_direction self) = Some ig →
  search_in_range self env cm ig = true →
  num_nodes (search_graph self env cm) ≠ num_nodes (im_graph ig) →
  time_limit self = None →
  match max_trials self with
  | Some m => (m ≤ 0)%Z
  | None => is_Some (call_limit self)
  end →
  ∃ st,
    search_phase self env cm ig = Ok (self, st)
    ∧ trials st = length (candidates self env cm ig)
    ∧ ∀ m l', m ∈ candidates self env cm ig →
        candidate_layout self env cm ig m = Some l' →
        ∃ l, chosen_layout st = Some l
             ∧ (layout_score self ig l <= layout_score self ig l')%Q.
Proof.
  intros Hig Hr Hne Htime Hmax.
  pose proof (build_interaction_graph_wf _ _ _ Hig) as Hwf.
  assert (default_max_trials self cm ig = self) as Hdef.
  { apply default_max_trials_configured.
    destruct (max_trials self); [left; eauto|right; by left]. }
  assert (trials_run self env 0 (length (candidates self env cm ig))
          = length (candidates self env cm ig)) as Hall.
  { apply trials_run_unlimited; [done|]. by destruct (max_trials self). }
  destruct (search_phase_unequal _ _ _ _ Hwf Hr Hne)
    as (st & ls & Hsearch & _ & Ht & _).
  rewrite Hdef in Hsearch, Ht. rewrite Hall in Ht.
  exists st. split_and!; [done..|].
  intros m l' Hm Hl'.
  destruct (search_phase_earliest_least self env cm ig Hwf Hr Hne)
    as (st' & i & c & l & Hsearch' & _ & _ & _ & _ & Hchosen & _ & _ & Hleast).
  { intros Hnil. rewrite Hnil in Hm. by apply elem_of_nil in Hm. }
  rewrite Hdef, Hsearch in Hsearch'. injection Hsearch' as <-.
  exists l. split; [done|].
  apply list_elem_of_lookup in Hm as [j Hj].
  apply (Hleast j m l'); [|done..].
  rewrite Ht. by eapply lookup_lt_Some.
Qed.

(** X7: with graphs of different node counts [score_layout] is called once
    per trial, on the layout of the candidate of that trial and in the
    order of the trials (the log lists the latest call first), and on
    nothing else. *)
Theorem scorer_called_once_per_trial self env dag cm ig :
  build_interaction_graph dag (strict_direction self) = Some ig →
  search_in_range self env cm ig = true →
  num_nodes (search_graph self env cm) ≠ num_nodes (im_graph ig) →
  ∃ st ls,
    search_phase self env cm ig = Ok (default_max_trials self cm ig, st)
    ∧ Forall2 (λ m l, candidate_layout self env cm ig m = Some l)
        (take (trials st) (candidates self env cm ig)) ls
    ∧ scored st = reverse ls
    ∧ length (scored st) = trials st.
Proof.
  intros Hig Hr Hne.
  pose proof (build_interaction_graph_wf _ _ _ Hig) as Hwf.
  destruct (search_phase_unequal _ _ _ _ Hwf Hr Hne)
    as (st & ls & Hsearch & Hls & Ht & _ & _ & _ & Hscored).
  exists st, (take (trials st) ls). split_and!; [done| |done|].
  - by apply Forall2_take.
  - rewrite Hscored, length_reverse, length_take.
    pose proof (Forall2_length _ _ _ Hls) as Hlen.
    pose proof (trials_run_le (default_max_trials self cm ig) env 0
                  (length (candidates self env cm ig))) as Hle.
    lia.
Qed.

(** ** A candidate the node tables do not know *)

Lemma layout_dict_ok_inv (rev : gmap nat Qubit) (cm_nodes : list nat) m :
  ∀ acc d, layout_dict rev cm_nodes m acc = Ok d →
  ∀ c i, (c, i) ∈ m → c < length cm_nodes ∧ is_Some (rev !! i).
Proof.
  induction m as [|[c0 i0] m IH]; intros acc d Hd c i Hin;
    [by apply elem_of_nil in Hin|].
  simpl in Hd. unfold getitem, getindex in Hd.
  destruct (rev !! i0) as [q|] eqn:Hq; [|done]. simpl in Hd.
  destruct (cm_nodes !! c0) as [p|] eqn:Hp; [|done]. simpl in Hd.
  apply elem_of_cons in Hin as [[= -> ->]|Hin].
  - split; [by eapply lookup_lt_Some|by rewrite Hq].
  - by eapply IH.
Qed.

(** [run_effect] agrees with [run] on the outcome. *)
Lemma run_effect_run self env dag :
  run self env dag
  = match run_effect self env dag with
    | (self', None) => Ok self'
    | (_, Some e) => Raise e
    end.
Proof.
  unfold run, run_effect. destruct (coupling_map self) as [cm|]; [|done].
  destruct (build_interaction_graph _ _) as [ig|]; [|done].
  destruct (search_phase _ env cm ig) as [[self1 st]|e]; simpl; [|done].
  by destruct (publish self1 dag st).
Qed.

(** X8: when the first candidate of the engine names a node outside one of
    the two graphs, [run] ends in the [KeyError] or [IndexError] of the
    layout construction, also when the node counts are equal and when
    later candidates are well formed.  The instance is left with the error
    map and the trial limit stored before the search, and with the
    property set it had: neither a layout nor a stop reason is
    published. *)
Theorem malformed_candidate_raises self env dag cm ig m rest :
  coupling_map self = Some cm →
  build_interaction_graph dag (strict_direction self) = Some ig →
  candidates self env cm ig = m :: rest →
  node_map_ok (search_graph self env cm) (im_graph ig) m = false →
  ∃ e self',
    run self env dag = Raise e
    ∧ (e = KeyError ∨ e = IndexError)
    ∧ run_effect self env dag = (self', Some e)
    ∧ self' = default_max_trials (ensure_avg_error_map self cm) cm ig
    ∧ property_set self' = property_set self.
Proof.
  intros Hcm Hig Hms Hbad.
  pose proof (build_interaction_graph_wf _ _ _ Hig) as [_ Hcov].
  assert (∃ e, search_phase (ensure_avg_error_map self cm) env cm ig = Raise e
               ∧ (e = KeyError ∨ e = IndexError)) as (e & Hsearch & He).
  { rewrite search_phase_unfold.
    rewrite candidates_ensure, search_graph_ensure, search_nodes_ensure, Hms.
    simpl. unfold trial.
    destruct (layout_dict (reverse_im_graph_node_map ig)
                (search_nodes self env cm) m ∅) as [d|e] eqn:Hd; simpl.
    - exfalso. apply not_true_iff_false in Hbad. apply Hbad.
      apply node_map_ok_spec. intros c i Hin.
      destruct (layout_dict_ok_inv _ _ _ _ _ Hd c i Hin) as [Hc Hi].
      unfold search_nodes in Hc. rewrite shuffle_coupling_graph_length in Hc.
      split; [done|]. by apply Hcov.
    - exists e. split; [done|]. by eapply layout_dict_raises. }
  assert (run_effect self env dag
          = (default_max_trials (ensure_avg_error_map self cm) cm ig, Some e))
    as Heffect.
  { unfold run_effect. rewrite Hcm.
    destruct (ensure_avg_error_map_frame self cm) as (_ & _ & _ & -> & _).
    by rewrite Hig, Hsearch. }
  exists e, (default_max_trials (ensure_avg_error_map self cm) cm ig).
  split_and!; [|done..|].
  - by rewrite run_effect_run, Heffect.
  - destruct (default_max_trials_frame (ensure_avg_error_map self cm) cm ig)
      as (_ & _ & _ & _ & _ & _ & _ & _ & ->).
    by destruct (ensure_avg_error_map_frame self cm)
      as (_ & _ & _ & _ & _ & _ & _ & _ & ->).
Qed.

(** ** Running the pass again *)

(** X9: a second run of the instance on the same circuit, under the same
    clock readings and entropy, ends in the state the first run ended in:
    the cached error map and the trial limit the first run stored do not
    change what the second run finds, and the property set is rewritten
    with the same layout and stop reason. *)
Theorem run_again_same_state self env dag self' :
  run self env dag = Ok self' → run self' env dag = Ok self'.
Proof.
  intros Hrun. destruct (run_ok_inv _ _ _ _ Hrun) as (cm & Hcm & Hinv).
  set (self1 := ensure_avg_error_map self cm) in *.
  assert (coupling_map self1 = Some cm) as Hcm1.
  { unfold self1. by destruct (ensure_avg_error_map_frame self cm)
      as (_ & -> & _). }
  assert (strict_direction self1 = strict_direction self) as Hstrict1.
  { unfold self1. by destruct (ensure_avg_error_map_frame self cm)
      as (_ & _ & _ & -> & _). }
  assert (ensure_avg_error_map self1 cm = self1) as Hens1
    by apply ensure_avg_error_map_idem.
  destruct (build_interaction_graph dag (strict_direction self))
    as [ig|] eqn:Hig.
  - destruct Hinv as (st & Hsearch & Hself').
    set (self2 := default_max_trials self1 cm ig) in *.
    pose proof (search_phase_again _ _ _ _ _ _ Hsearch) as Hagain.
    pose proof (search_phase_safe self1 env cm ig) as Hsafe.
    rewrite Hsearch in Hsafe. destruct Hsafe as [_ Hfound].
    assert (coupling_map self2 = Some cm
            ∧ build_interaction_graph dag (strict_direction self2) = Some ig
            ∧ ensure_avg_error_map self2 cm = self2
            ∧ search_phase self2 env cm ig = Ok (self2, st)) as Hsearched.
    { split_and!; [..|done].
      - unfold self2. by destruct (default_max_trials_frame self1 cm ig)
          as (_ & -> & _).
      - unfold self2. destruct (default_max_trials_frame self1 cm ig)
          as (_ & _ & _ & -> & _). by rewrite Hstrict1.
      - unfold self2. by rewrite ensure_default_commute, Hens1. }
    destruct (chosen_layout st) as [chosen|] eqn:Hchosen.
    + apply (run_from_searched_set_property _ _ _ _ _ _ "layout"
               (PVLayout (add_registers chosen dag))) in Hsearched.
      apply (run_from_searched_set_property _ _ _ _ _ _
               "VF2Layout_stop_reason" (PVStopReason SOLUTION_FOUND))
        in Hsearched.
      destruct Hsearched as (H1 & H2 & H3 & H4). subst self'.
      rewrite (run_from_searched _ _ _ _ _ _ H1 H2 H3 H4).
      rewrite (publish_found _ _ _ Hfound), Hchosen.
      by rewrite set_property_pair_twice.
    + apply (run_from_searched_set_property _ _ _ _ _ _
               "VF2Layout_stop_reason" (PVStopReason NO_SOLUTION_FOUND))
        in Hsearched.
      destruct Hsearched as (H1 & H2 & H3 & H4). subst self'.
      rewrite (run_from_searched _ _ _ _ _ _ H1 H2 H3 H4).
      rewrite (publish_found _ _ _ Hfound), Hchosen.
      by rewrite set_property_twice.
  - subst self'. unfold run. simpl.
    rewrite Hcm1, ensure_avg_error_map_set_property, Hens1.
    simpl. rewrite Hstrict1, Hig. by rewrite set_property_twice.
Qed.

(** ** A freshly constructed pass *)

(** X10: after a returning run of a freshly constructed pass the property
    set holds the stop reason and nothing else but, possibly, the layout;
    the layout key is present exactly when the stop reason is
    [SOLUTION_FOUND]. *)
Theorem fresh_pass_layout_iff_solution (cm0 : option CouplingMap) strict
    (sd cl : option Z) (tl : option Q) (props : option Properties)
    (mt : option Z) (t : option Target) env dag self' :
  run (init cm0 strict sd cl tl props mt t) env dag = Ok self' →
  ∃ r,
    property_set self' !! "VF2Layout_stop_reason"%string
    = Some (PVStopReason r)
    ∧ (is_Some (property_set self' !! "layout"%string) ↔ r = SOLUTION_FOUND)
    ∧ ∀ k : string, is_Some (property_set self' !! k) →
        k = "layout"%string ∨ k = "VF2Layout_stop_reason"%string.
Proof.
  remember (init cm0 strict sd cl tl props mt t) as self eqn:Hself.
  assert (property_set self = ∅) as Hfresh by by subst self.
  clear Hself. intros Hrun. destruct (run_ok_inv _ _ _ _ Hrun) as (cm & Hcm & Hinv).
  assert (property_set (ensure_avg_error_map self cm) = ∅) as E9.
  { destruct (ensure_avg_error_map_frame self cm)
      as (_ & _ & _ & _ & _ & _ & _ & _ & E). by rewrite E. }
  assert (∀ (ps : gmap string PropertyValue) (k : string),
            ps = ∅ → is_Some (ps !! k) → False) as Hempty.
  { intros ps k -> [v Hv]. by rewrite lookup_empty in Hv. }
  destruct (build_interaction_graph dag (strict_direction self)) as [ig|].
  - destruct Hinv as (st & _ & ->).
    assert (property_set
              (default_max_trials (ensure_avg_error_map self cm) cm ig) = ∅)
      as D9.
    { destruct (default_max_trials_frame (ensure_avg_error_map self cm)
                  cm ig) as (_ & _ & _ & _ & _ & _ & _ & _ & D).
      by rewrite D, E9. }
    destruct (chosen_layout st) as [chosen|]; simpl; rewrite D9.
    + exists SOLUTION_FOUND. rewrite lookup_insert_eq. split_and!; [done| |].
      * rewrite lookup_insert_ne by done. rewrite lookup_insert_eq.
        split; eauto.
      * intros k Hk.
        destruct (decide (k = "VF2Layout_stop_reason"%string)); [by right|].
        destruct (decide (k = "layout"%string)); [by left|].
        rewrite !lookup_insert_ne in Hk by done.
        destruct (Hempty ∅ k eq_refl Hk).
    + exists NO_SOLUTION_FOUND. rewrite lookup_insert_eq.
      split_and!; [done| |].
      * rewrite lookup_insert_ne by done.
        split; [intros Hk; destruct (Hempty ∅ "layout"%string eq_refl Hk)|done].
      * intros k Hk.
        destruct (decide (k = "VF2Layout_stop_reason"%string)); [by right|].
        rewrite lookup_insert_ne in Hk by done.
        destruct (Hempty ∅ k eq_refl Hk).
  - subst self'. simpl. rewrite E9. exists MORE_THAN_2Q.
    rewrite lookup_insert_eq. split_and!; [done| |].
    + rewrite lookup_insert_ne by done.
      split; [intros Hk; destruct (Hempty ∅ "layout"%string eq_refl Hk)|done].
    + intros k Hk.
      destruct (decide (k = "VF2Layout_stop_reason"%string)); [by right|].
      rewrite lookup_insert_ne in Hk by done.
      destruct (Hempty ∅ k eq_refl Hk).
Qed.

End Properties.

(** * The pass on sample circuits *)

#[local] Existing Instance sample_collaborators.

(** The spec's first example: the chain [0 - 1 - 2] on the line of three
    qubits is placed on the line itself after one trial. *)
Example chain_on_line :
  published_stop_reason (sample_run pass_plain still dag_chain)
  = Some SOLUTION_FOUND
  ∧ published_layout (sample_run pass_plain still dag_chain)
    = Some [(Qb 2, 2); (Qb 1, 1); (Qb 0, 0)]
  ∧ observe (λ p, trials p.2)
      (sample_search pass_plain still line3 (sample_ig dag_chain false))
    = Some 1.
Proof. by vm_compute. Qed.

(** A triangle does not embed into the line: no layout is published. *)
Example triangle_on_line :
  published_stop_reason (sample_run pass_plain still dag_triangle)
  = Some NO_SOLUTION_FOUND
  ∧ published_layout (sample_run pass_plain still dag_triangle) = None.
Proof. by vm_compute. Qed.

Lemma embeddable_circuit_gets_layout_witness :
  ∃ self' l,
    sample_run pass_shuffled still dag_chain = Ok self'
    ∧ property_set self' !! "VF2Layout_stop_reason"%string
      = Some (PVStopReason SOLUTION_FOUND)
    ∧ property_set self' !! "layout"%string = Some (PVLayout l)
    ∧ ∀ a b, (a, b) ∈ edge_list (im_graph (sample_ig dag_chain false)) →
        ∃ qa qb pa pb,
          reverse_im_graph_node_map (sample_ig dag_chain false) !! a = Some qa
          ∧ reverse_im_graph_node_map (sample_ig dag_chain false) !! b = Some qb
          ∧ v2p l !! qa = Some pa ∧ v2p l !! qb = Some pb
          ∧ has_edge (coupling_view line3 false) pa pb = true.
Proof.
  apply (embeddable_circuit_gets_layout (Collaborators0 := sample_collaborators)
           pass_shuffled still dag_chain line3 (sample_ig dag_chain false)).
  - reflexivity.
  - by vm_compute.
  - reflexivity.
  - apply reverse_Permutation.
  - intros m Hm. apply list_elem_of_In in Hm. revert m Hm.
    apply forallb_forall. by vm_compute.
  - intros _. by vm_compute.
  - exists [(0, 0); (1, 1); (2, 2)]. by vm_compute.
Defined.

Lemma run_more_than_2q_witness :
  ∃ self',
    sample_run pass_plain still dag_toffoli = Ok self'
    ∧ property_set self' !! "VF2Layout_stop_reason"%string
      = Some (PVStopReason MORE_THAN_2Q)
    ∧ property_set self' !! "layout"%string = None
    ∧ max_trials self' = None.
Proof.
  destruct (run_more_than_2q (Collaborators0 := sample_collaborators)
              pass_plain still dag_toffoli line3)
    as (self' & Hrun & _ & Hps & Hlayout & Hmax & _).
  - reflexivity.
  - exists (ccx 0 1 2). split; [right; left|simpl; lia].
  - exists self'. split_and!; [exact Hrun| |exact Hlayout|exact Hmax].
    rewrite Hps. apply lookup_insert_eq.
Defined.

Lemma stop_reason_and_publication_witness :
  ∃ self' chosen,
    sample_run pass_shuffled still dag_pair = Ok self'
    ∧ property_set self' !! "VF2Layout_stop_reason"%string
      = Some (PVStopReason SOLUTION_FOUND)
    ∧ property_set self' !! "layout"%string
      = Some (PVLayout (add_registers chosen dag_pair))
    ∧ is_Some (v2p (add_registers chosen dag_pair) !! Qb 2).
Proof.
  destruct (stop_reason_and_publication (Collaborators0 := sample_collaborators)
              pass_shuffled still dag_pair line3 (sample_ig dag_pair false))
    as (self' & st & _ & Hrun & _ & _ & Hcons).
  - reflexivity.
  - by vm_compute.
  - by vm_compute.
  - destruct Hcons as (chosen & _ & Hstop & Hlayout & _ & Hcover);
      [by vm_compute|].
    exists self', chosen. split_and!; [exact Hrun|exact Hstop|exact Hlayout|].
    apply (Hcover ("q"%string, [Qb 0; Qb 1; Qb 2])); [left|].
    right; right; left.
Defined.

Lemma equal_size_shortcut_witness :
  ∃ l st self',
    candidate_layout (Collaborators0 := sample_collaborators) pass_plain still
      line3 (sample_ig dag_chain false) [(0, 0); (1, 1); (2, 2)] = Some l
    ∧ sample_search (ensure_avg_error_map pass_plain line3) still line3
        (sample_ig dag_chain false)
      = Ok (default_max_trials (ensure_avg_error_map pass_plain line3) line3
              (sample_ig dag_chain false), st)
    ∧ chosen_layout st = Some l
    ∧ trials st = 1
    ∧ scored st = []
    ∧ chosen_layout_score st = None
    ∧ sample_run pass_plain still dag_chain = Ok self'
    ∧ property_set self' !! "layout"%string
      = Some (PVLayout (add_registers l dag_chain))
    ∧ property_set self' !! "VF2Layout_stop_reason"%string
      = Some (PVStopReason SOLUTION_FOUND).
Proof.
  apply (equal_size_shortcut (Collaborators0 := sample_collaborators)
           pass_plain still dag_chain line3 (sample_ig dag_chain false)
           [(0, 0); (1, 1); (2, 2)] [[(2, 0); (1, 1); (0, 2)]]).
  - reflexivity.
  - by vm_compute.
  - reflexivity.
  - by vm_compute.
  - reflexivity.
Defined.

Lemma retained_is_earliest_least_witness :
  ∃ st i m l,
    sample_search pass_shuffled still line3 (sample_ig dag_pair false)
    = Ok (default_max_trials pass_shuffled line3 (sample_ig dag_pair false), st)
    ∧ i < trials st
    ∧ sample_candidates pass_shuffled still line3 (sample_ig dag_pair false) !! i
      = Some m
    ∧ candidate_layout (Collaborators0 := sample_collaborators) pass_shuffled
        still line3 (sample_ig dag_pair false) m = Some l
    ∧ chosen_layout st = Some l.
Proof.
  destruct (retained_is_earliest_least (Collaborators0 := sample_collaborators)
              pass_shuffled still dag_pair line3 (sample_ig dag_pair false))
    as (st & i & m & l & H1 & H2 & H3 & H4 & H5 & _).
  - by vm_compute.
  - by vm_compute.
  - by vm_compute.
  - by vm_compute.
  - exists st, i, m, l. by split_and!.
Defined.

Lemma derived_default_trial_cap_witness :
  ∃ st,
    sample_search pass_shuffled still line3 (sample_ig dag_pair false)
    = Ok (set_max_trials pass_shuffled (Some 17%Z), st)
    ∧ sample_search (set_max_trials pass_shuffled (Some 17%Z)) still line3
        (sample_ig dag_pair false)
      = Ok (set_max_trials pass_shuffled (Some 17%Z), st)
    ∧ trials st = 4.
Proof.
  destruct (derived_default_trial_cap (Collaborators0 := sample_collaborators)
              pass_shuffled still dag_pair line3 (sample_ig dag_pair false))
    as (st & H1 & H2 & H3).
  - by vm_compute.
  - by vm_compute.
  - reflexivity.
  - reflexivity.
  - reflexivity.
  - exists st. split_and!; [exact H1|exact H2|]. rewrite H3. by vm_compute.
Defined.

Lemma larger_positive_max_trials_never_worse_witness :
  ∃ st1 l1 st2 l2,
    sample_search (set_max_trials pass_shuffled (Some 1%Z)) still line3
      (sample_ig dag_pair false)
    = Ok (set_max_trials pass_shuffled (Some 1%Z), st1)
    ∧ chosen_layout st1 = Some l1
    ∧ sample_search (set_max_trials pass_shuffled (Some 3%Z)) still line3
        (sample_ig dag_pair false)
      = Ok (set_max_trials pass_shuffled (Some 3%Z), st2)
    ∧ chosen_layout st2 = Some l2
    ∧ (layout_score pass_shuffled (sample_ig dag_pair false) l2
       <= layout_score pass_shuffled (sample_ig dag_pair false) l1)%Q.
Proof.
  apply (larger_positive_max_trials_never_worse
           (Collaborators0 := sample_collaborators)
           pass_shuffled still dag_pair line3 (sample_ig dag_pair false) 1 3).
  - by vm_compute.
  - by vm_compute.
  - by vm_compute.
  - lia.
  - lia.
Defined.

Lemma run_deterministic_witness :
  sample_run pass_shuffled still dag_pair
  = sample_run pass_shuffled hasty dag_pair
  ∧ ∀ self', sample_run pass_shuffled still dag_pair = Ok self' →
      sample_run self' hasty dag_pair = Ok self'.
Proof.
  apply (run_deterministic (Collaborators0 := sample_collaborators)
           pass_shuffled still hasty dag_pair 7); reflexivity.
Defined.

Lemma avg_error_map_built_once_witness :
  ∃ self' em,
    sample_run pass_calibrated still dag_chain = Ok self'
    ∧ avg_error_map self' = Some em
    ∧ em = 1
    ∧ ∀ t p c env2 dag2 self'',
        sample_run (set_inputs self' t p c) env2 dag2 = Ok self'' →
        avg_error_map self'' = Some em.
Proof.
  apply (avg_error_map_built_once (Collaborators0 := sample_collaborators)
           pass_calibrated still dag_chain line3).
  - reflexivity.
  - by vm_compute.
Defined.

(** C7: a pass constructed without any limit holds [max_trials = None];
    after a run on the triangle it holds the limit 18 derived for that
    circuit, and a later run on the single pair keeps 18, where a fresh
    pass derives 17. *)
Example derived_max_trials_is_persisted :
  max_trials pass_plain = None
  ∧ observe max_trials (sample_run pass_plain still dag_triangle)
    = Some (Some 18%Z)
  ∧ observe max_trials
      (self ←! sample_run pass_plain still dag_triangle;
       sample_run self still dag_pair)
    = Some (Some 18%Z)
  ∧ observe max_trials (sample_run pass_plain still dag_pair)
    = Some (Some 17%Z).
Proof. by vm_compute. Qed.

(** C8, as stated, fails: after the calibration data of the instance is
    replaced, the next run still holds the error map built from the old
    data, not the one the new data gives. *)
Lemma avg_error_map_not_recomputed :
  observe avg_error_map
    (self ←! sample_run pass_calibrated still dag_chain;
     sample_run (set_inputs self None (Some 2) (Some line3)) still dag_chain)
  = Some (Some 1)
  ∧ build_average_error_map None (Some 2) line3 = 2
  ∧ observe avg_error_map
      (self ←! sample_run pass_calibrated still dag_chain;
       sample_run (set_inputs self None (Some 2) (Some line3)) still dag_chain)
    ≠ Some (Some (build_average_error_map None (Some 2) line3)).
Proof. by vm_compute. Qed.

(** C9, as stated, fails: with a time limit of one second, the same pass
    on the same circuit publishes different layouts under a clock that
    stands still and under one that passes the limit during the first
    trial. *)
Lemma time_limit_breaks_determinism :
  published_layout (sample_run pass_timed still dag_pair)
  = Some [(Qb 2, 2); (Qb 1, 0); (Qb 0, 1)]
  ∧ published_layout (sample_run pass_timed hasty dag_pair)
    = Some [(Qb 2, 0); (Qb 1, 1); (Qb 0, 2)]
  ∧ sample_run pass_timed still dag_pair
    ≠ sample_run pass_timed hasty dag_pair.
Proof.
  split_and!; [by vm_compute..|].
  intros Heq. apply (f_equal published_layout) in Heq.
  by vm_compute in Heq.
Qed.

(** C10, as stated, fails: raising [max_trials] from 0 (no limit on the
    trials) to 1 raises the score of the chosen layout from 1 to 3. *)
Lemma max_trials_zero_to_one_worsens :
  observe (λ p, chosen_layout_score p.2)
    (sample_search (set_max_trials pass_shuffled (Some 0%Z)) still line3
       (sample_ig dag_pair false))
  = Some (Some 1%Q)
  ∧ observe (λ p, chosen_layout_score p.2)
      (sample_search (set_max_trials pass_shuffled (Some 1%Z)) still line3
         (sample_ig dag_pair false))
    = Some (Some 3%Q)
  ∧ (0 ≤ 1)%Z
  ∧ ¬ (3 <= 1)%Q.
Proof. split_and!; [by vm_compute..|lia|]. by intros H; vm_compute in H. Qed.

(** * Further properties on sample circuits *)

Lemma run_raises_only_witness :
  sample_run pass_bare still dag_chain
  = Raise (TranspilerError "coupling_map or target must be specified.").
Proof.
  destruct (run_raises_only (Collaborators0 := sample_collaborators)
              pass_bare still dag_chain) as (_ & Hnone & _).
  apply Hnone. reflexivity.
Defined.

Lemma run_frame_configuration_witness :
  target after_chain = target pass_plain
  ∧ coupling_map after_chain = coupling_map pass_plain
  ∧ properties after_chain = properties pass_plain
  ∧ strict_direction after_chain = strict_direction pass_plain
  ∧ seed after_chain = seed pass_plain
  ∧ call_limit after_chain = call_limit pass_plain
  ∧ time_limit after_chain = time_limit pass_plain
  ∧ ∀ k : string, k ≠ "layout"%string → k ≠ "VF2Layout_stop_reason"%string →
      property_set after_chain !! k = property_set pass_plain !! k.
Proof.
  apply (run_frame_configuration (Collaborators0 := sample_collaborators)
           pass_plain still dag_chain after_chain).
  by vm_compute.
Defined.

Lemma stop_reason_always_set_witness :
  ∃ r,
    property_set after_chain !! "VF2Layout_stop_reason"%string
    = Some (PVStopReason r)
    ∧ (r = MORE_THAN_2Q ↔
       build_interaction_graph dag_chain (strict_direction pass_plain) = None)
    ∧ (r = SOLUTION_FOUND →
       ∃ l, property_set after_chain !! "layout"%string = Some (PVLayout l))
    ∧ (r ≠ SOLUTION_FOUND →
       property_set after_chain !! "layout"%string
       = property_set pass_plain !! "layout"%string).
Proof.
  apply (stop_reason_always_set (Collaborators0 := sample_collaborators)
           pass_plain still dag_chain after_chain).
  by vm_compute.
Defined.

Lemma max_trials_bounds_trials_witness :
  ∃ st,
    sample_search (set_max_trials pass_shuffled (Some 2%Z)) still line3
      (sample_ig dag_pair false)
    = Ok (set_max_trials pass_shuffled (Some 2%Z), st)
    ∧ (Z.of_nat (trials st) ≤ 2)%Z
    ∧ trials st
      ≤ length (sample_candidates (set_max_trials pass_shuffled (Some 2%Z))
                  still line3 (sample_ig dag_pair false)).
Proof.
  apply (max_trials_bounds_trials (Collaborators0 := sample_collaborators)
           (set_max_trials pass_shuffled (Some 2%Z)) still dag_pair line3
           (sample_ig dag_pair false) 2).
  - by vm_compute.
  - by vm_compute.
  - reflexivity.
  - lia.
Defined.

Lemma time_limit_bounds_trials_witness :
  ∃ st,
    sample_search pass_timed hasty line3 (sample_ig dag_pair false)
    = Ok (pass_timed, st)
    ∧ trials st ≤ 1.
Proof.
  apply (time_limit_bounds_trials (Collaborators0 := sample_collaborators)
           pass_timed hasty dag_pair line3 (sample_ig dag_pair false) 1 1).
  - by vm_compute.
  - by vm_compute.
  - reflexivity.
  - lia.
  - by vm_compute.
Defined.

Lemma unlimited_search_tries_all_witness :
  ∃ st,
    sample_search (set_max_trials pass_shuffled (Some 0%Z)) still line3
      (sample_ig dag_pair false)
    = Ok (set_max_trials pass_shuffled (Some 0%Z), st)
    ∧ trials st
      = length (sample_candidates (set_max_trials pass_shuffled (Some 0%Z))
                  still line3 (sample_ig dag_pair false))
    ∧ ∀ m l',
        m ∈ sample_candidates (set_max_trials pass_shuffled (Some 0%Z))
              still line3 (sample_ig dag_pair false) →
        candidate_layout (set_max_trials pass_shuffled (Some 0%Z)) still line3
          (sample_ig dag_pair false) m = Some l' →
        ∃ l, chosen_layout st = Some l
             ∧ (layout_score (set_max_trials pass_shuffled (Some 0%Z))
                  (sample_ig dag_pair false) l
                <= layout_score (set_max_trials pass_shuffled (Some 0%Z))
                     (sample_ig dag_pair false) l')%Q.
Proof.
  apply (unlimited_search_tries_all (Collaborators0 := sample_collaborators)
           (set_max_trials pass_shuffled (Some 0%Z)) still dag_pair line3
           (sample_ig dag_pair false)).
  - by vm_compute.
  - by vm_compute.
  - by vm_compute.
  - reflexivity.
  - simpl. lia.
Defined.

Lemma scorer_called_once_per_trial_witness :
  ∃ st ls,
    sample_search pass_shuffled still line3 (sample_ig dag_pair false)
    = Ok (default_max_trials pass_shuffled line3 (sample_ig dag_pair false), st)
    ∧ Forall2 (λ m l, candidate_layout pass_shuffled still line3
                        (sample_ig dag_pair false) m = Some l)
        (take (trials st)
           (sample_candidates pass_shuffled still line3
              (sample_ig dag_pair false))) ls
    ∧ scored st = reverse ls
    ∧ length (scored st) = trials st.
Proof.
  apply (scorer_called_once_per_trial (Collaborators0 := sample_collaborators)
           pass_shuffled still dag_pair line3 (sample_ig dag_pair false)).
  - by vm_compute.
  - by vm_compute.
  - by vm_compute.
Defined.

Lemma malformed_candidate_raises_witness :
  ∃ e self',
    run (Collaborators0 := faulty_collaborators) pass_plain still dag_chain
    = Raise e
    ∧ (e = KeyError ∨ e = IndexError)
    ∧ run_effect (Collaborators0 := faulty_collaborators) pass_plain still
        dag_chain = (self', Some e)
    ∧ self'
      = default_max_trials
          (ensure_avg_error_map (Collaborators0 := faulty_collaborators)
             pass_plain line3) line3 (sample_ig dag_chain false)
    ∧ property_set self' = property_set pass_plain.
Proof.
  apply (malformed_candidate_raises (Collaborators0 := faulty_collaborators)
           pass_plain still dag_chain line3 (sample_ig dag_chain false)
           [(7, 0); (1, 1)] []).
  - reflexivity.
  - by vm_compute.
  - reflexivity.
  - by vm_compute.
Defined.

Lemma run_again_same_state_witness :
  sample_run after_chain still dag_chain = Ok after_chain.
Proof.
  apply (run_again_same_state (Collaborators0 := sample_collaborators)
           pass_plain still dag_chain after_chain).
  by vm_compute.
Defined.

Lemma fresh_pass_layout_iff_solution_witness :
  ∃ r,
    property_set after_chain !! "VF2Layout_stop_reason"%string
    = Some (PVStopReason r)
    ∧ (is_Some (property_set after_chain !! "layout"%string)
       ↔ r = SOLUTION_FOUND)
    ∧ ∀ k : string, is_Some (property_set after_chain !! k) →
        k = "layout"%string ∨ k = "VF2Layout_stop_reason"%string.
Proof.
  apply (fresh_pass_layout_iff_solution (Collaborators0 := sample_collaborators)
           (Some line3) false (Some (-1)%Z) None None None None None
           still dag_chain after_chain).
  by vm_compute.
Defined.

(** A layout published by an earlier run survives a later run that finds
    none: after the chain and then the triangle, the stop reason is
    [NO_SOLUTION_FOUND] and the layout key still holds the layout of the
    chain. *)
Example stale_layout_survives :
  published_stop_reason (sample_run after_chain still dag_triangle)
  = Some NO_SOLUTION_FOUND
  ∧ published_layout (sample_run after_chain still dag_triangle)
    = Some [(Qb 2, 2); (Qb 1, 1); (Qb 0, 0)].
Proof. by vm_compute. Qed.

(** C6: an invocation of a pass for which no limit was ever configured does
    not always run under the limit derived from its own graphs.  The first
    run, on the complete graph on five qubits, stores max(10, 6) + 15 = 25;
    the next run of the same instance, on a pair with a spare qubit (60
    candidates), makes 25 trials and reaches a layout of score 7, where the
    derived limit max(1, 6) + 15 = 21, under which a fresh pass runs, gives
    21 trials and a layout of score 9. *)
Example stale_trial_cap_is_used :
  max_trials pass_line7 = None
  ∧ call_limit pass_line7 = None
  ∧ time_limit pass_line7 = None
  ∧ observe max_trials (sample_run pass_line7 still dag_k5)
    = Some (Some 25%Z)
  ∧ length (sample_candidates after_k5 still line7
              (sample_ig dag_pair_spare false)) = 60
  ∧ observe (λ p, (trials p.2, chosen_layout_score p.2))
      (sample_search after_k5 still line7 (sample_ig dag_pair_spare false))
    = Some (25, Some 7%Q)
  ∧ observe (λ p, (trials p.2, chosen_layout_score p.2))
      (sample_search (ensure_avg_error_map pass_line7 line7) still line7
         (sample_ig dag_pair_spare false))
    = Some (21, Some 9%Q)
  ∧ published_layout (sample_run after_k5 still dag_pair_spare)
    = Some [(Qb 2, 0); (Qb 1, 3); (Qb 0, 4)]
  ∧ published_layout (sample_run pass_line7 still dag_pair_spare)
    = Some [(Qb 2, 0); (Qb 1, 4); (Qb 0, 5)].
Proof. by vm_compute. Qed.
